(** * scp_r2r: secure copy between two remote hosts

    A shallow embedding of [scp_r2r.py] and the properties of its three
    parts: the SSH configuration store ([SSHConfig.parse], [SSHConfig.lookup]),
    the ssh-agent life cycle ([get_ssh_agent], [ssh_agent_start],
    [ssh_agent_load_keys], [ssh_agent_stop]) and the transfer itself
    ([scp], [main_transfer], [main]).

    Python values are modelled as follows.
    - [str] (a Python 2 byte string) is [string]; the methods the script
      calls are in module [Py].
    - [dict] with string keys and values is [gmap string string].  The
      iteration order of a Python 2 dict is unspecified; the model iterates
      in [map_to_list] order and no statement below depends on the order.
    - Raising is a value of [result]; code that also spawns processes,
      prints or touches [os.environ] runs in the state monad [M].
    - The debug output of the script is not part of the trace; where the
      argument of a [debug] call can raise, the model raises. *)

From stdpp Require Import gmap strings list fin_maps pretty sorting.
From Stdlib Require Import Ascii String ZArith Lia.

Local Open Scope string_scope.
Local Open Scope Z_scope.
Local Open Scope list_scope.

Abbreviation dict := (gmap string string).

(** ** Python string methods *)

Module Py.

(** [c.isspace()] for one byte in the C locale. *)
Definition isspace (c : ascii) : bool :=
  match nat_of_ascii c with
  | 9%nat | 10%nat | 11%nat | 12%nat | 13%nat | 32%nat => true
  | _ => false
  end.

Definition is_upper (c : ascii) : bool :=
  (65 <=? nat_of_ascii c)%nat && (nat_of_ascii c <=? 90)%nat.

Definition lower_char (c : ascii) : ascii :=
  if is_upper c then ascii_of_nat (nat_of_ascii c + 32) else c.

(** [s.lower()] *)
Fixpoint lower (s : string) : string :=
  match s with
  | EmptyString => EmptyString
  | String c s' => String (lower_char c) (lower s')
  end.

Definition is_empty (s : string) : bool :=
  match s with EmptyString => true | _ => false end.

Definition eqc (a b : ascii) : bool := Ascii.eqb a b.

(** [s.lstrip()] and [s.lstrip(chars)]: drop the leading bytes in [p]. *)
Fixpoint lstrip_by (p : ascii -> bool) (s : string) : string :=
  match s with
  | EmptyString => EmptyString
  | String c s' => if p c then lstrip_by p s' else s
  end.

(** [s.rstrip()] and [s.rstrip(chars)]: drop the trailing bytes in [p]. *)
Fixpoint rstrip_by (p : ascii -> bool) (s : string) : string :=
  match s with
  | EmptyString => EmptyString
  | String c s' =>
      let r := rstrip_by p s' in
      if is_empty r && p c then EmptyString else String c r
  end.

Definition strip_by (p : ascii -> bool) (s : string) : string :=
  rstrip_by p (lstrip_by p s).

Definition lstrip := lstrip_by isspace.
Definition strip := strip_by isspace.

(** [c in s] *)
Fixpoint contains (c : ascii) (s : string) : bool :=
  match s with
  | EmptyString => false
  | String d s' => eqc c d || contains c s'
  end.

(** The number of occurrences of [c] in [s]: [s.count(c)]. *)
Fixpoint count (c : ascii) (s : string) : nat :=
  match s with
  | EmptyString => 0%nat
  | String d s' => ((if eqc c d then 1 else 0) + count c s')%nat
  end.

(** The longest prefix of [s] without a byte in [p], and the rest. *)
Fixpoint break (p : ascii -> bool) (s : string) : string * string :=
  match s with
  | EmptyString => (EmptyString, EmptyString)
  | String c s' =>
      if p c then (EmptyString, s)
      else let '(a, b) := break p s' in (String c a, b)
  end.

(** [s.split(c, 1)] for an [s] that contains [c]: the text before the
    first [c] and the text after it. *)
Definition split1 (c : ascii) (s : string) : string * string :=
  let '(a, b) := break (eqc c) s in
  (a, match b with EmptyString => EmptyString | String _ b' => b' end).

(** [s.split(c)]: the fields between the occurrences of [c]; one more
    field than there are occurrences. *)
Fixpoint split (c : ascii) (s : string) : list string :=
  match s with
  | EmptyString => [EmptyString]
  | String d s' =>
      match split c s' with
      | f :: fs => if eqc c d then EmptyString :: f :: fs else String d f :: fs
      | [] => []
      end
  end.

(** [s.split()]: the maximal runs of bytes that are not white space.
    [cur] is the run being read, if any. *)
Fixpoint split_ws_go (cur : option string) (s : string) : list string :=
  match s with
  | EmptyString => match cur with Some w => [w] | None => [] end
  | String c s' =>
      if isspace c
      then match cur with
           | Some w => w :: split_ws_go None s'
           | None => split_ws_go None s'
           end
      else split_ws_go (Some (match cur with
                              | Some w => w +:+ String c EmptyString
                              | None => String c EmptyString
                              end)) s'
  end.

Definition split_ws : string -> list string := split_ws_go None.

(** [len(s)] *)
Definition len (s : string) : nat := String.length s.

End Py.

(** ** Exceptions *)

(** The message of a [ScpError], kept structured instead of formatted. *)
Inductive scp_message :=
| ProcessError (ret : Z)                 (* 'Process error %d' *)
| CannotStartProcess (command : list string) (* 'Cannot start process: ...' *)
| CannotDetermineAgentData (output : string) (* 'Cannot determine agent data ...' *)
| UnknownHost (name : string).           (* 'Unknown host "%s". ...' *)

Inductive exn :=
| ScpError (value : scp_message)
| KeyError (key : string)
| UnparsableLine (line : string)         (* Exception('Unparsable line: %r') *)
| SystemExit (code : Z).

Inductive result (A : Type) :=
| OK (a : A)
| Raise (e : exn).
Arguments OK {A} a.
Arguments Raise {A} e.

Definition rbind {A B} (r : result A) (k : A -> result B) : result B :=
  match r with
  | OK a => k a
  | Raise e => Raise e
  end.

Notation "x <~ r ; k" := (rbind r (fun x => k))
  (at level 20, r at level 100, k at level 200, only parsing).
Notation "' pat <~ r ; k" := (rbind r (fun x => match x with pat => k end))
  (at level 20, pat pattern, r at level 100, k at level 200, only parsing).

(** [d[k]] *)
Definition getitem (d : dict) (k : string) : result string :=
  match d !! k with
  | Some v => OK v
  | None => Raise (KeyError k)
  end.

(** [for x in xs: ...] over a computation that can raise. *)
Fixpoint forM {A B} (f : A -> result B) (xs : list A) : result (list B) :=
  match xs with
  | [] => OK []
  | x :: xs' => y <~ f x ; ys <~ forM f xs' ; OK (y :: ys)
  end.

Fixpoint foldM {A S} (f : S -> A -> result S) (s : S) (xs : list A) : result S :=
  match xs with
  | [] => OK s
  | x :: xs' => s' <~ f s x ; foldM f s' xs'
  end.

(** ** SSHConfig *)

Module SSHConfig.

(** [self._config]: the rules in parse order; every rule is a dict that
    holds its pattern under the key 'host'. *)
Abbreviation t := (list dict).

(** [__init__] *)
Definition init : t := [ {[ "host" := "*" ]} ].

(** A rule paired with its pattern, [x['host']]. *)
Definition with_host (x : dict) : result (string * dict) :=
  h <~ getitem x "host" ; OK (h, x).

(** The index of the first rule whose pattern is [host]:
    [[c for c in self._config if c['host'] == host]], then [matches[0]]. *)
Definition find_rule (_config : t) (host : string) : result (option nat) :=
  hs <~ forM with_host _config ;
  OK (fst <$> list_find (fun hx => fst hx = host) hs).

(** One line cut into key and value (lines 90 to 101). *)
Definition split_line (line : string) : result (string * string) :=
  if Py.contains "=" line then
    let '(key, value) := Py.split1 "=" line in
    OK (Py.lower (Py.strip key), value)
  else
    let '(key, rest) := Py.break Py.isspace line in
    if Py.is_empty rest then Raise (UnparsableLine line)
    else OK (Py.lower key, Py.lstrip rest).

(** The state of the loop of [parse]: the rules, and [configs], the
    rules the current 'host' line names.  [configs] aliases dicts of
    [_config], so it is a list of positions in [_config]. *)
Definition pstate : Type := t * list nat.

(** The body of [for host in value.split()] (lines 107 to 114). *)
Definition add_host (st : pstate) (host : string) : result pstate :=
  let '(_config, configs) := st in
  m <~ find_rule _config host ;
  match m with
  | Some i => OK (_config, configs ++ [i])
  | None => OK (_config ++ [ {[ "host" := host ]} ], configs ++ [List.length _config])
  end.

(** [for config in configs: config[key] = value] *)
Definition set_option (key value : string) (_config : t) (configs : list nat) : t :=
  foldl (fun cfg i => alter (insert key value) i cfg) _config configs.

(** The body of the loop of [parse] for one line. *)
Definition parse_line (st : pstate) (line : string) : result pstate :=
  let line := Py.lstrip (Py.rstrip_by (Py.eqc "010") line) in
  if Py.is_empty line then OK st
  else if match line with String c _ => Py.eqc c "#" | _ => false end then OK st
  else
    '(key, value) <~ split_line line ;
    if String.eqb key "host" then
      foldM add_host (fst st, []) (Py.split_ws value)
    else
      OK (set_option key value (fst st) (snd st), snd st).

(** [parse]: the rules after reading the lines into [self]. *)
Definition parse (self : t) (file_obj : list string) : result t :=
  st <~ foldM parse_line (self, [0%nat]) file_obj ;
  OK (fst st).

Section Lookup.

(** [fnmatch.fnmatch(name, pat)] of the Python standard library: shell
    style matching of [name] against the pattern [pat].  It is taken as
    a total function: a pattern that [re] refuses to compile (a range
    such as [[z-a]]) is outside the model. *)
Variable fnmatch : string -> string -> bool.

(** [matches.sort(lambda x,y: cmp(len(x['host']), len(y['host'])))].
    [list.sort] is stable: rules with patterns of one length keep
    their order.  Every rule comes with its pattern. *)
Fixpoint insert_by_len (x : string * dict) (l : list (string * dict))
  : list (string * dict) :=
  match l with
  | [] => [x]
  | y :: l' =>
      if (Py.len (fst x) <=? Py.len (fst y))%nat then x :: l
      else y :: insert_by_len x l'
  end.

Definition sort_by_len (l : list (string * dict)) : list (string * dict) :=
  foldr insert_by_len [] l.

(** [ret = {}; for m in matches: ret.update(m)] *)
Definition update_all (matches : list (string * dict)) : dict :=
  foldl (fun ret m => snd m ∪ ret) ∅ matches.

(** [del ret[k]] *)
Definition delitem (k : string) (ret : dict) : result dict :=
  match ret !! k with
  | Some _ => OK (delete k ret)
  | None => Raise (KeyError k)
  end.

(** [lookup] *)
Definition lookup (_config : t) (hostname : string) : result dict :=
  hs <~ forM with_host _config ;
  let matches := filter (fun hx => fnmatch hostname (fst hx) = true) hs in
  let matches := sort_by_len matches in
  delitem "host" (update_all matches).

End Lookup.

End SSHConfig.

(** ** The command line *)

(** A Python value held by an attribute of [options]. *)
Inductive pyvalue :=
| PyNone
| PyBool (b : bool)
| PyInt (z : Z).

(** The truth value of [v] in [if v:]. *)
Definition truthy (v : pyvalue) : bool :=
  match v with
  | PyNone => false
  | PyBool b => b
  | PyInt z => negb (z =? 0)
  end.

(** [str(v)] *)
Definition str (v : pyvalue) : string :=
  match v with
  | PyNone => "None"
  | PyBool true => "True"
  | PyBool false => "False"
  | PyInt z => pretty z
  end.

(** [options]: the attributes named by the [dest] of the options. *)
Record Values := {
  verbose : pyvalue;
  push : pyvalue;
  limit : pyvalue;
  recursive : pyvalue;
  compression : pyvalue
}.

(** The reason of a [parser.error]. *)
Inductive usage_error :=
| NoSuchOption (opt : string)
| AmbiguousOption (opt : string)
| RequiresArgument (opt : string)
| DoesNotTakeValue (opt : string)
| InvalidInteger (opt value : string)
| ExactlyTwoHosts             (* 'please specify exactly two hosts' *)
| HostnamePathForm.           (* 'host arguments must be in the form "hostname:path"' *)

(** [optparse.OptionParser] with the options [main] adds to it.  The table
    [options] is the source's; the engine follows [optparse]:
    options and positional arguments may be mixed, [--] ends the options,
    short options may be bundled, a long option may be abbreviated to an
    unambiguous prefix. *)
Module OptParse.

Inductive action := store | store_true | store_false | help.
Inductive dest := d_verbose | d_push | d_limit | d_recursive | d_compression.

Record Option := {
  opt_strings : list string;
  opt_action : action;
  opt_dest : option dest
}.

(** The option [-h]/[--help] of every parser, then lines 301 to 312. *)
Definition option_list : list Option := [
  {| opt_strings := ["-h"; "--help"]; opt_action := help; opt_dest := None |};
  {| opt_strings := ["-v"; "--verbose"]; opt_action := store_true;
     opt_dest := Some d_verbose |};
  {| opt_strings := ["--push"]; opt_action := store_true;
     opt_dest := Some d_push |};
  {| opt_strings := ["--pull"]; opt_action := store_false;
     opt_dest := Some d_push |};
  {| opt_strings := ["-l"]; opt_action := store; opt_dest := Some d_limit |};
  {| opt_strings := ["-r"]; opt_action := store_true;
     opt_dest := Some d_recursive |};
  {| opt_strings := ["-C"]; opt_action := store_false;
     opt_dest := Some d_compression |}
].

(** The defaults: [default=False] of [-v], [default=True] of [--push],
    [None] where no default is given. *)
Definition defaults : Values :=
  {| verbose := PyBool false; push := PyBool true; limit := PyNone;
     recursive := PyNone; compression := PyNone |}.

Definition setattr (values : Values) (d : dest) (v : pyvalue) : Values :=
  match d with
  | d_verbose => {| verbose := v; push := push values; limit := limit values;
                    recursive := recursive values; compression := compression values |}
  | d_push => {| verbose := verbose values; push := v; limit := limit values;
                 recursive := recursive values; compression := compression values |}
  | d_limit => {| verbose := verbose values; push := push values; limit := v;
                  recursive := recursive values; compression := compression values |}
  | d_recursive => {| verbose := verbose values; push := push values; limit := limit values;
                      recursive := v; compression := compression values |}
  | d_compression => {| verbose := verbose values; push := push values; limit := limit values;
                        recursive := recursive values; compression := v |}
  end.

Inductive outcome (A : Type) :=
| Done (a : A)
| Error (e : usage_error)
| Help.                          (* print the help and [sys.exit(0)] *)
Arguments Done {A} a.
Arguments Error {A} e.
Arguments Help {A}.

Definition is_long (o : string) : bool := String.prefix "--" o.

Definition short_opt (o : string) : option Option :=
  list_find (fun x => o ∈ opt_strings x) option_list ≫= fun ix =>
  Some (snd ix).

Definition long_opts : list string :=
  filter (fun o => is_long o = true) (option_list ≫= opt_strings).

Definition long_opt (o : string) : option Option :=
  list_find (fun x => o ∈ opt_strings x) option_list ≫= fun ix =>
  Some (snd ix).

(** [_match_abbrev]: [o] itself when it is an option, else the only
    option it is a prefix of. *)
Definition match_abbrev (o : string) : outcome string :=
  if decide (o ∈ long_opts) then Done o
  else match filter (fun w => String.prefix o w = true) long_opts with
       | [w] => Done w
       | [] => Error (NoSuchOption o)
       | _ => Error (AmbiguousOption o)
       end.

Definition takes_value (o : Option) : bool :=
  match opt_action o with store => true | _ => false end.

(** The bytes after the dash of a bundle of short options:
    [arg[:1] == "-" and len(arg) > 1]. *)
Definition short_chars (arg : string) : option string :=
  match arg with
  | String a (String c rest) =>
      if Py.eqc a "-" then Some (String c rest) else None
  | _ => None
  end.

Section Engine.

(** The conversion of the argument of an option of [type='int']: the
    integer that [optparse] reads in the text, if it reads one. *)
Variable parse_int : string -> option Z.

(** [option.process(opt, value, values, parser)]: convert the value,
    then take the action. *)
Definition process (o : Option) (opt : string) (value : option string)
    (values : Values) : outcome Values :=
  match opt_action o, opt_dest o with
  | help, _ => Help
  | store_true, Some d => Done (setattr values d (PyBool true))
  | store_false, Some d => Done (setattr values d (PyBool false))
  | store, Some d =>
      match value with
      | Some v =>
          match parse_int v with
          | Some z => Done (setattr values d (PyInt z))
          | None => Error (InvalidInteger opt v)
          end
      | None => Error (RequiresArgument opt)
      end
  | _, None => Done values
  end.

(** [_process_short_opts] on the bytes after the dash.  The result is
    the new values and the option, if any, whose argument is the next
    command-line argument. *)
Fixpoint process_short_opts (chars : string) (values : Values)
  : outcome (Values * option (Option * string)) :=
  match chars with
  | EmptyString => Done (values, None)
  | String ch rest =>
      let opt := String "-" (String ch EmptyString) in
      match short_opt opt with
      | None => Error (NoSuchOption opt)
      | Some o =>
          if takes_value o then
            match rest with
            | EmptyString => Done (values, Some (o, opt))
            | _ =>
                match process o opt (Some rest) values with
                | Done values' => Done (values', None)
                | Error e => Error e
                | Help => Help
                end
            end
          else
            match process o opt None values with
            | Done values' => process_short_opts rest values'
            | Error e => Error e
            | Help => Help
            end
      end
  end.

(** [_process_long_opt]; no long option of this parser takes a value. *)
Definition process_long_opt (arg : string) (values : Values)
  : outcome Values :=
  let had_explicit_value := Py.contains "=" arg in
  let opt := if had_explicit_value then fst (Py.split1 "=" arg) else arg in
  match match_abbrev opt with
  | Done opt =>
      match long_opt opt with
      | Some o =>
          if takes_value o then
            Error (RequiresArgument opt)
          else if had_explicit_value then Error (DoesNotTakeValue opt)
          else process o opt None values
      | None => Error (NoSuchOption opt)
      end
  | Error e => Error e
  | Help => Help
  end.

(** [_process_args].  [largs] are the positional arguments read so
    far; [pending] is the short option that waits for the next
    argument as its value. *)
Fixpoint process_args (values : Values) (largs : list string)
    (pending : option (Option * string)) (rargs : list string)
  : outcome (Values * list string) :=
  match rargs with
  | [] =>
      match pending with
      | Some (_, opt) => Error (RequiresArgument opt)
      | None => Done (values, largs)
      end
  | arg :: rargs' =>
      match pending with
      | Some (o, opt) =>
          match process o opt (Some arg) values with
          | Done values' => process_args values' largs None rargs'
          | Error e => Error e
          | Help => Help
          end
      | None =>
          if String.eqb arg "--" then Done (values, largs ++ rargs')
          else if String.prefix "--" arg then
            match process_long_opt arg values with
            | Done values' => process_args values' largs None rargs'
            | Error e => Error e
            | Help => Help
            end
          else
            match short_chars arg with
            | Some chars =>
                match process_short_opts chars values with
                | Done (values', pending') =>
                    process_args values' largs pending' rargs'
                | Error e => Error e
                | Help => Help
                end
            | None => process_args values (largs ++ [arg]) None rargs'
            end
      end
  end.

(** [parser.parse_args()] on [sys.argv[1:]] *)
Definition parse_args (argv : list string) : outcome (Values * list string) :=
  process_args defaults [] None argv.

End Engine.

End OptParse.

(** ** Processes, the environment and the trace *)

Definition SSH_PATH : string := "/usr/bin/ssh".
Definition SSH_AGENT_PATH : string := "/cygdrive/c/bin/ssh-pageant".
Definition SSH_ADD_PATH : string := "/usr/bin/ssh-add".

(** What [subprocess.Popen] gets as [stdin] and [stdout]: pipes, or the
    streams of the script itself. *)
Inductive stdio := PIPE | sys_stdio.

(** The object passed as [env]: [os.environ] itself, or a dict of its own. *)
Inductive env_object :=
| os_environ
| env_dict (d : dict).

(** What a spawned process does: it cannot be started ([OSError]), or it
    runs to its exit status [ret] having written [output]. *)
Inductive process :=
| CannotStart
| Exited (ret : Z) (output : string).

(** What the run does that can be seen from outside. *)
Inductive event :=
| Popen (command : list string) (env : dict) (io : stdio)
| ReadConfig                              (* [open(SSH_CONFIG_FILE).readlines()] *)
| ListKnownHosts (hosts : list string)    (* the listing of [list_known_hosts] *)
| PrintError (value : scp_message)        (* [print 'Error: ', e.value] *)
| ParserError (e : usage_error)           (* [parser.error(...)] *)
| PrintHelp.

(** The pairs [re.findall] returns for the pattern
    [(SSH_AUTH_SOCK|SSH_AGENT_PID|SSH_PAGEANT_PID)=([^;]+);] *)
Module AgentOutput.

(** [s] without the prefix [p], when [p] is a prefix of [s]. *)
Fixpoint strip_prefix (p s : string) : option string :=
  match p, s with
  | EmptyString, _ => Some s
  | String a p', String b s' => if Py.eqc a b then strip_prefix p' s' else None
  | _, EmptyString => None
  end.

(** A match of [name=([^;]+);] at the start of [s]: the value and the
    length of the match. *)
Definition match_name (name s : string) : option (string * nat) :=
  match strip_prefix (name +:+ "=") s with
  | Some r =>
      let '(v, r') := Py.break (Py.eqc ";") r in
      if Py.is_empty v || Py.is_empty r' then None
      else Some (v, (String.length name + 1 + String.length v + 1)%nat)
  | None => None
  end.

(** A match of the whole pattern at the start of [s]: the alternatives
    are tried in order. *)
Definition match_here (s : string) : option (string * string * nat) :=
  let try := fun name =>
    match match_name name s with
    | Some (v, n) => Some (name, v, n)
    | None => None
    end in
  match try "SSH_AUTH_SOCK" with
  | Some m => Some m
  | None =>
      match try "SSH_AGENT_PID" with
      | Some m => Some m
      | None => try "SSH_PAGEANT_PID"
      end
  end.

(** [findall]: the matches from left to right, not overlapping.  [skip]
    counts the bytes of the last match still to be passed over. *)
Fixpoint findall_go (skip : nat) (s : string) : list (string * string) :=
  match s with
  | EmptyString => []
  | String _ s' =>
      match skip with
      | S n => findall_go n s'
      | O =>
          match match_here s with
          | Some (k, v, n) => (k, v) :: findall_go (n - 1) s'
          | None => findall_go 0 s'
          end
      end
  end.

Definition findall (output : string) : list (string * string) :=
  findall_go 0 output.

End AgentOutput.

(** [dict(pairs)]: a later pair overwrites an earlier one with its key. *)
Definition dict_of_pairs (pairs : list (string * string)) : dict :=
  foldl (fun d kv => <[fst kv := snd kv]> d) ∅ pairs.

(** [get_ssh_agent_pid] *)
Definition get_ssh_agent_pid (agent : dict) : option string :=
  match agent !! "SSH_AGENT_PID" with
  | Some pid => Some pid
  | None => agent !! "SSH_PAGEANT_PID"
  end.

(** A host of the transfer: [{'name': ..., 'path': ..., 'config': ...}] *)
Record Host := {
  name : string;
  path : string;
  config : dict
}.

(** The part of [scp] before the process is run (lines 194 to 227). *)
Module Scp.

(** [connect_host], [remote_host], [source] and [target] *)
Definition endpoints (host1 host2 : Host) (options : Values)
  : result (Host * Host * string * string) :=
  if truthy (push options) then
    hostname <~ getitem (config host2) "hostname" ;
    OK (host1, host2, path host1, hostname +:+ ":" +:+ path host2)
  else
    hostname <~ getitem (config host1) "hostname" ;
    OK (host2, host1, hostname +:+ ":" +:+ path host1,
        if Py.is_empty (path host2) then "~" else path host2).

(** The options that become [-o] overrides: [remote_host['config'].items()]
    without 'identityfile' and 'hostname'. *)
Definition override_items (remote_config : dict) : list (string * string) :=
  filter (fun kv => fst kv ∉ ["identityfile"; "hostname"])
         (map_to_list remote_config).

(** ['-o%s=%s' % (option, value)] *)
Definition override (kv : string * string) : string :=
  "-o" +:+ fst kv +:+ "=" +:+ snd kv.

(** The flags of the inner [scp] after [-p] (lines 213 to 220). *)
Definition flags (options : Values) : list string :=
  (if truthy (verbose options) then ["-v"] else []) ++
  (if truthy (limit options) then ["-l"; str (limit options)] else []) ++
  (if truthy (recursive options) then ["-r"] else []) ++
  (if truthy (compression options) then ["-C"] else []).

Definition command (host1 host2 : Host) (options : Values)
  : result (list string) :=
  '(connect_host, remote_host, source, target) <~ endpoints host1 host2 options ;
  OK ([SSH_PATH; "-A"; "-t"] ++
      (if truthy (verbose options) then ["-v"] else []) ++
      [name connect_host; "scp"; "-p"] ++
      flags options ++
      (override <$> override_items (config remote_host)) ++
      [source; target]).

End Scp.

(** ** The listing of the known hosts *)

(** [columnize(list, display_width)].  Its two failures are the
    [IndexError] of [sorted(...)[-1]] on an empty list and the
    [ZeroDivisionError] of the division by [float(columns)].  The number
    of rows is [int(math.ceil(len(list) / float(columns)))]: for a list
    shorter than 2^53 the quotient of the two floats is rounded
    correctly and its ceiling is the ceiling of the exact quotient. *)
Module Columnize.

Inductive error := IndexError | ZeroDivisionError.

(** The argument [list] of the source is [entries] here. *)

Fixpoint spaces (n : nat) : string :=
  match n with
  | O => EmptyString
  | S n' => String " " (spaces n')
  end.

(** ['%-Ns' % s]: [s] padded with spaces on the right to the width [n]. *)
Definition ljust (n : nat) (s : string) : string :=
  s +:+ spaces (n - String.length s).

(** [sorted([len(entry) for entry in list])[-1]] of a list that is not
    empty. *)
Definition max_entry_width (entries : list string) : nat :=
  max_list_with String.length entries.

(** [display_width / column_width], the quotient of two integers. *)
Definition columns (entries : list string) (display_width : nat) : nat :=
  (display_width / (max_entry_width entries + 2))%nat.

(** The ceiling of [n / columns], for [columns] that is not zero. *)
Definition rows (n columns : nat) : nat :=
  ((n + columns - 1) / columns)%nat.

(** The entries of one row: [list[column*rows + row]] for the columns in
    order, where that index is in the list. *)
Definition row_entries (entries : list string) (rows columns row : nat)
  : list string :=
  omap (fun column => entries !! (column * rows + row)%nat) (seq 0 columns).

(** The entries row by row. *)
Definition layout (entries : list string) (display_width : nat)
  : list (list string) :=
  let columns := columns entries display_width in
  let rows := rows (List.length entries) columns in
  row_entries entries rows columns <$> seq 0 rows.

(** [('%-' + str(max_entry_width) + 's  ') % entry] *)
Definition cell (width : nat) (entry : string) : string :=
  ljust width entry +:+ "  ".

(** The text of one row, with its newline. *)
Definition render_row (width : nat) (entries : list string) : string :=
  foldr String.append (String "010" EmptyString) (cell width <$> entries).

Definition columnize (entries : list string) (display_width : nat)
  : error + string :=
  match entries with
  | [] => inl IndexError
  | _ =>
      if (columns entries display_width =? 0)%nat then inl ZeroDivisionError
      else inr (foldr String.append EmptyString
                  (render_row (max_entry_width entries) <$>
                   layout entries display_width))
  end.

End Columnize.

(** ** More words for the properties *)

(** The names of the variables [ssh_agent_start] looks for. *)
Definition agent_names : list string :=
  ["SSH_AUTH_SOCK"; "SSH_AGENT_PID"; "SSH_PAGEANT_PID"].

(** Every key of [d] is in lower case. *)
Definition lower_keys (d : dict) : Prop :=
  forall k, is_Some (d !! k) -> Py.lower k = k.

(** A line [parse] passes over: blank, or a comment. *)
Definition is_ignored (line : string) : bool :=
  match Py.lstrip (Py.rstrip_by (Py.eqc "010") line) with
  | EmptyString => true
  | String c _ => Py.eqc c "#"
  end.

(** The event of the outer [ssh] being spawned. *)
Definition is_ssh (e : event) : bool :=
  match e with
  | Popen (a :: _) _ _ => String.eqb a SSH_PATH
  | _ => false
  end.

(** ** A machine to run the script on *)

(** A matcher for the patterns made of ordinary bytes, [*] and [?]: on
    these patterns it is what [fnmatch.fnmatch] computes. *)
Fixpoint glob_match (pat : string) (name : string) {struct pat} : bool :=
  match pat with
  | EmptyString => Py.is_empty name
  | String p pat' =>
      if Py.eqc p "*" then
        (fix star (name : string) : bool :=
           glob_match pat' name ||
           match name with
           | EmptyString => false
           | String _ name' => star name'
           end) name
      else
        match name with
        | EmptyString => false
        | String c name' =>
            (Py.eqc p "?" || Py.eqc p c) && glob_match pat' name'
        end
  end.

Definition glob (name pat : string) : bool := glob_match pat name.

(** The integer a string of decimal digits stands for. *)
Fixpoint decimal_go (acc : Z) (s : string) : option Z :=
  match s with
  | EmptyString => Some acc
  | String c s' =>
      let n := nat_of_ascii c in
      if (48 <=? n)%nat && (n <=? 57)%nat
      then decimal_go (10 * acc + Z.of_nat (n - 48)) s'
      else None
  end.

Definition decimal (s : string) : option Z :=
  if Py.is_empty s then None else decimal_go 0 s.

(** A machine whose processes are scripted: the n-th process spawned is
    the n-th of the list, and none can be started after the last. *)
Definition scripted (w : list process) (command : list string) (env : dict)
    (io : stdio) : list process * process :=
  match w with
  | p :: w' => (w', p)
  | [] => ([], CannotStart)
  end.

(** The lines of a file, each with its newline. *)
Definition newline : string := String "010" EmptyString.

Definition file (l : list string) : list string :=
  (fun s => s +:+ newline) <$> l.

(** ** Examples *)

(** A configuration file with two hosts, and the store [parse] makes of
    it; the rule of [*] holds no option. *)
Definition two_hosts_file : list string :=
  file ["# hosts"; "Host h1"; "  HostName h1.example.org"; "  Port 2222";
        "  IdentityFile /k1"; "Host h2"; "  HostName h2.example.org";
        "  User me"].

Definition two_hosts_config : SSHConfig.t :=
  [ {[ "host" := "*" ]};
    {[ "host" := "h1"; "hostname" := "h1.example.org"; "port" := "2222";
       "identityfile" := "/k1" ]};
    {[ "host" := "h2"; "hostname" := "h2.example.org"; "user" := "me" ]} ].

(** A configuration file that sets a port for every host before its
    first Host line, and a port of its own for [h2]. *)
Definition default_port_file : list string :=
  file ["Port 22"; "Host h2"; "  HostName h2.example.org"; "  Port 2222"].

Definition default_port_config : SSHConfig.t :=
  [ {[ "host" := "*"; "port" := "22" ]};
    {[ "host" := "h2"; "hostname" := "h2.example.org"; "port" := "2222" ]} ].

(** Two resolved hosts of [two_hosts_file]; [h2] without a path. *)
Definition host_h1 : Host :=
  {| name := "h1"; path := "/a";
     config := {[ "hostname" := "h1.example.org"; "port" := "2222";
                  "identityfile" := "/k1" ]} |}.

Definition host_h2 : Host :=
  {| name := "h2"; path := "";
     config := {[ "hostname" := "h2.example.org"; "user" := "me" ]} |}.

(** What an agent prints when it starts, and the same without the line
    of the socket. *)
Definition announcement : string :=
  "SSH_AUTH_SOCK='/tmp/ssh-agent.sock'; export SSH_AUTH_SOCK;" +:+ newline +:+
  "SSH_PAGEANT_PID=1234; export SSH_PAGEANT_PID;" +:+ newline.

Definition announcement_without_socket : string :=
  "SSH_PAGEANT_PID=1234; export SSH_PAGEANT_PID;" +:+ newline.

(** The variables of the agent of [announcement]. *)
Definition agent_variables : dict :=
  {[ "SSH_AUTH_SOCK" := "/tmp/ssh-agent.sock"; "SSH_PAGEANT_PID" := "1234" ]}.

Section Run.

(** The matcher and the integer conversion of the Python standard
    library. *)
Variable fnmatch : string -> string -> bool.
Variable parse_int : string -> option Z.

(** The machine the script runs on: [popen w command env io] is the
    process that [command] becomes when spawned in the machine state [w]
    with the environment [env], and the machine state after it. *)
Variable World : Type.
Variable popen : World -> list string -> dict -> stdio -> World * process.

Record state := {
  environ : dict;              (* [os.environ] *)
  config_file : list string;   (* the lines of [SSH_CONFIG_FILE] *)
  world : World;
  trace : list event
}.

Definition M (A : Type) : Type := state -> state * result A.

Definition ret {A} (a : A) : M A := fun st => (st, OK a).

Definition raise {A} (e : exn) : M A := fun st => (st, Raise e).

Definition bind {A B} (m : M A) (k : A -> M B) : M B :=
  fun st =>
    match m st with
    | (st', OK a) => k a st'
    | (st', Raise e) => (st', Raise e)
    end.

Definition lift {A} (r : result A) : M A := fun st => (st, r).

(** The state with one more event, with another [os.environ], with
    another machine state. *)
Definition log (e : event) (st : state) : state :=
  {| environ := environ st; config_file := config_file st;
     world := world st; trace := trace st ++ [e] |}.

Definition with_environ (d : dict) (st : state) : state :=
  {| environ := d; config_file := config_file st;
     world := world st; trace := trace st |}.

Definition with_world (w : World) (st : state) : state :=
  {| environ := environ st; config_file := config_file st;
     world := w; trace := trace st |}.

Definition emit (e : event) : M unit := fun st => (log e st, OK tt).

(** [try: body finally: final] *)
Definition try_finally {A} (body : M A) (final : M unit) : M A :=
  fun st =>
    match body st with
    | (st1, r) =>
        match final st1 with
        | (st2, OK _) => (st2, r)
        | (st2, Raise e) => (st2, Raise e)
        end
    end.

(** [try: body except ScpError, e: handler] *)
Definition try_except_ScpError {A} (body : M A) (handler : scp_message -> M A)
  : M A :=
  fun st =>
    match body st with
    | (st1, Raise (ScpError value)) => handler value st1
    | (st1, r) => (st1, r)
    end.

Notation "x <- m ; k" := (bind m (fun x => k))
  (at level 20, m at level 100, k at level 200, only parsing).
Notation "' pat <- m ; k" := (bind m (fun x => match x with pat => k end))
  (at level 20, pat pattern, m at level 100, k at level 200, only parsing).

(** [read_ssh_config] *)
Definition read_ssh_config : M SSHConfig.t :=
  _ <- emit ReadConfig ;
  fun st => lift (SSHConfig.parse SSHConfig.init (config_file st)) st.

(** [run_command]: the output of the process, [ScpError] when it cannot
    be started or exits with a status that is not zero. *)
Definition run_command (command : list string) (io : stdio) (env : env_object)
  : M string :=
  fun st =>
    let e := match env with os_environ => environ st | env_dict d => d end in
    let '(w, p) := popen (world st) command e io in
    let st' := log (Popen command e io) (with_world w st) in
    match p with
    | CannotStart => (st', Raise (ScpError (CannotStartProcess command)))
    | Exited ret output =>
        if ret =? 0 then (st', OK output)
        else (st', Raise (ScpError (ProcessError ret)))
    end.

(** [get_ssh_agent]: the dict of the inherited socket, or [None]. *)
Definition get_ssh_agent : M (option dict) :=
  fun st =>
    match environ st !! "SSH_AUTH_SOCK" with
    | Some sock => (st, OK (Some {[ "SSH_AUTH_SOCK" := sock ]}))
    | None => (st, OK None)
    end.

(** [ssh_agent_start].  The two [debug] calls evaluate their arguments
    whether or not the script is verbose: [agent['SSH_AUTH_SOCK']] raises
    when the key is missing, [get_ssh_agent_pid(agent)] never does. *)
Definition ssh_agent_start : M dict :=
  output <- run_command [SSH_AGENT_PATH] PIPE os_environ ;
  match AgentOutput.findall output with
  | [] => raise (ScpError (CannotDetermineAgentData output))
  | m =>
      let agent :=
        dict_of_pairs ((fun kv => (fst kv, Py.strip_by (Py.eqc "'") (snd kv))) <$> m) in
      _ <- lift (getitem agent "SSH_AUTH_SOCK") ;
      ret agent
  end.

(** [get_ssh_agent_env]: [os.environ] is updated in place and returned. *)
Definition get_ssh_agent_env (agent : dict) : M env_object :=
  fun st => (with_environ (agent ∪ environ st) st, OK os_environ).

(** [ssh_agent_load_keys] *)
Definition ssh_agent_load_keys (agent : dict) (identity_files : list string)
  : M unit :=
  match identity_files with
  | [] => ret tt
  | _ =>
      env <- get_ssh_agent_env agent ;
      _ <- run_command (SSH_ADD_PATH :: identity_files) sys_stdio env ;
      ret tt
  end.

(** [ssh_agent_stop] *)
Definition ssh_agent_stop (agent : dict) : M unit :=
  env <- get_ssh_agent_env agent ;
  _ <- run_command [SSH_AGENT_PATH; "-k"] PIPE env ;
  ret tt.

(** [scp] *)
Definition scp (agent : dict) (host1 host2 : Host) (options : Values) : M unit :=
  command <- lift (Scp.command host1 host2 options) ;
  env <- get_ssh_agent_env agent ;
  _ <- run_command command sys_stdio env ;
  ret tt.

(** [list_known_hosts]: the event stands for the two [print]s.  The
    listing itself is left to the event: the query of the terminal
    ([get_term_info], which raises [IOError] when the output is no
    terminal) and the failure of [columnize] on a terminal that is too
    narrow are not part of this model, in which the listing returns. *)
Definition list_known_hosts (sshconfig : SSHConfig.t) : M unit :=
  hs <- lift (forM SSHConfig.with_host sshconfig) ;
  let hosts := filter (fun h => h ≠ "*") (fst <$> hs) in
  match hosts with
  | [] => ret tt
  | _ => emit (ListKnownHosts hosts)
  end.

(** Lines 267 to 270, and 271 to 274. *)
Definition check_known (sshconfig : SSHConfig.t) (host : Host) : M unit :=
  if decide (config host = ∅) then
    _ <- list_known_hosts sshconfig ;
    raise (ScpError (UnknownHost (name host)))
  else ret tt.

(** Lines 276 to 280: the agent of the run and [agent_started]. *)
Definition acquire_agent : M (dict * bool) :=
  agent <- get_ssh_agent ;
  match agent with
  | Some a =>
      if decide (a = ∅) then
        agent <- ssh_agent_start ; ret (agent, true)
      else ret (a, false)
  | None => agent <- ssh_agent_start ; ret (agent, true)
  end.

(** Lines 282 to 286. *)
Definition identity_files (host1 host2 : Host) : list string :=
  match config host1 !! "identityfile" with Some f => [f] | None => [] end ++
  match config host2 !! "identityfile" with Some f => [f] | None => [] end.

(** Lines 281 to 291: the keys and the transfer, and the agent stopped
    at the end when the run started it. *)
Definition transfer_with_agent (agent : dict) (agent_started : bool)
    (host1 host2 : Host) (options : Values) : M unit :=
  try_finally
    (_ <- ssh_agent_load_keys agent (identity_files host1 host2) ;
     scp agent host1 host2 options)
    (if agent_started then ssh_agent_stop agent else ret tt).

(** Lines 265 to 274: the two hosts with their resolved options; a host
    comes in as its name and its path. *)
Definition resolve_hosts (sshconfig : SSHConfig.t) (host1 host2 : string * string)
  : M (Host * Host) :=
  config1 <- lift (SSHConfig.lookup fnmatch sshconfig (fst host1)) ;
  let host1 := {| name := fst host1; path := snd host1; config := config1 |} in
  config2 <- lift (SSHConfig.lookup fnmatch sshconfig (fst host2)) ;
  let host2 := {| name := fst host2; path := snd host2; config := config2 |} in
  _ <- check_known sshconfig host1 ;
  _ <- check_known sshconfig host2 ;
  ret (host1, host2).

(** [main_transfer] *)
Definition main_transfer (host1 host2 : string * string) (options : Values)
  : M unit :=
  sshconfig <- read_ssh_config ;
  try_except_ScpError
    ('(host1, host2) <- resolve_hosts sshconfig host1 host2 ;
     '(agent, agent_started) <- acquire_agent ;
     transfer_with_agent agent agent_started host1 host2 options)
    (fun value =>
       _ <- emit (PrintError value) ;
       raise (SystemExit 2)).

(** [parser.error(msg)]: the usage and the message, then [sys.exit(2)]. *)
Definition parser_error {A} (e : usage_error) : M A :=
  _ <- emit (ParserError e) ;
  raise (SystemExit 2).

(** [name, path = arg.split(':')]: [ValueError] unless there are exactly
    two fields. *)
Definition unpack_host (arg : string) : option (string * string) :=
  match Py.split ":" arg with
  | [name; path] => Some (name, path)
  | _ => None
  end.

(** [main] on [sys.argv[1:]] *)
Definition main (argv : list string) : M unit :=
  match OptParse.parse_args parse_int argv with
  | OptParse.Help => _ <- emit PrintHelp ; raise (SystemExit 0)
  | OptParse.Error e => parser_error e
  | OptParse.Done (options, args) =>
      match args with
      | [arg1; arg2] =>
          match unpack_host arg1, unpack_host arg2 with
          | Some host1, Some host2 => main_transfer host1 host2 options
          | _, _ => parser_error HostnamePathForm
          end
      | _ => parser_error ExactlyTwoHosts
      end
  end.

(** ** The resolver in the words of the specification *)

(** The pattern of a rule. *)
Definition pattern (r : dict) : string := default "" (r !! "host").

(** The rules whose pattern matches [hostname], in parse order. *)
Definition matching_rules (_config : SSHConfig.t) (hostname : string)
  : list dict :=
  filter (fun r => fnmatch hostname (pattern r) = true) _config.

(** [ms] is [l] put in ascending order of pattern length, the rules of
    one length keeping the order they have in [l]. *)
Definition ascending_stable (l ms : list dict) : Prop :=
  Sorted (fun a b => (Py.len (pattern a) <= Py.len (pattern b))%nat) ms /\
  forall n : nat,
    filter (fun r => Py.len (pattern r) = n) ms =
    filter (fun r => Py.len (pattern r) = n) l.

(** The value of the key [k] after merging [ms] in order: the one of the
    last rule that has the key. *)
Fixpoint last_binding (ms : list dict) (k : string) : option string :=
  match ms with
  | [] => None
  | m :: ms' =>
      match last_binding ms' k with
      | Some v => Some v
      | None => m !! k
      end
  end.

(** The stores [parse] can produce: every rule has a pattern that is not
    empty, and the first rule is the one of the pattern [*]. *)
Definition wf_config (_config : SSHConfig.t) : Prop :=
  Forall (fun r => exists p, r !! "host" = Some p /\ p <> "") _config /\
  exists r0, head _config = Some r0 /\ r0 !! "host" = Some "*".

(** ** The trace in the words of the specification *)

(** The event of the agent stop step: [ssh_agent_stop] spawning the agent
    with [-k]. *)
Definition is_stop (e : event) : bool :=
  match e with
  | Popen [a; k] _ _ => String.eqb a SSH_AGENT_PATH && String.eqb k "-k"
  | _ => false
  end.

(** How many times the stop step is in a trace. *)
Definition stops (t : list event) : nat :=
  List.length (List.filter is_stop t).

(** The event of a process being spawned. *)
Definition is_popen (e : event) : bool :=
  match e with
  | Popen _ _ _ => true
  | _ => false
  end.

(** [m] takes every state to a state that [R] relates to it, whatever
    [m] returns or raises. *)
Definition preserves {A} (R : state -> state -> Prop) (m : M A) : Prop :=
  forall st, R st (fst (m st)).

(** From [st] to [st'] no process was spawned: the environment, the
    machine and the file are the same and the trace has grown by events
    that are not [Popen]. *)
Definition quiet (st st' : state) : Prop :=
  environ st' = environ st /\ world st' = world st /\
  config_file st' = config_file st /\
  exists evs, trace st' = trace st ++ evs /\
              Forall (fun e => is_popen e = false) evs.

(** From [st] to [st'] the trace has grown by [n] stop steps. *)
Definition stopped (n : nat) (st st' : state) : Prop :=
  exists evs, trace st' = trace st ++ evs /\ stops evs = n.

(** No key of [d] contains the byte [=]. *)
Definition plain_keys (d : dict) : Prop :=
  forall k, is_Some (d !! k) -> Py.contains "=" k = false.

(** ** More relations between the states of a run *)

(** From [st] to [st'] the environment is the same. *)
Definition same_environ (st st' : state) : Prop :=
  environ st' = environ st.

(** From [st] to [st'] the environment is the same outside [names]. *)
Definition environ_frame (names : list string) (st st' : state) : Prop :=
  forall k, k ∉ names -> environ st' !! k = environ st !! k.

(** From [st] to [st'] an environment that holds the variables of
    [agent] is the same. *)
Definition environ_kept (agent : dict) (st st' : state) : Prop :=
  agent ⊆ environ st -> environ st' = environ st.

(** From [st] to [st'] the trace has grown without an outer [ssh]. *)
Definition no_ssh (st st' : state) : Prop :=
  exists evs, trace st' = trace st ++ evs /\
              Forall (fun e => is_ssh e = false) evs.

(** [m] raises only exceptions in [P]. *)
Definition raises_only {A} (P : exn -> Prop) (m : M A) : Prop :=
  forall st e, snd (m st) = Raise e -> P e.

(** An [ScpError] or a [KeyError]. *)
Definition scp_or_key_error (e : exn) : Prop :=
  (exists v, e = ScpError v) \/ (exists k, e = KeyError k).

(** * Properties *)

(** ** Strings *)

Lemma split_ws_go_nonempty s : forall cur,
  (forall w, cur = Some w -> w <> "") ->
  Forall (fun w => w <> "") (Py.split_ws_go cur s).
Proof.
  induction s as [|c s IH]; intros cur Hcur; simpl.
  - destruct cur as [w|]; [|constructor].
    constructor; [by apply Hcur | constructor].
  - destruct (Py.isspace c).
    + destruct cur as [w|].
      * constructor; [by apply Hcur|]. apply IH. intros ? [=].
      * apply IH. intros ? [=].
    + apply IH. intros w [= <-]. destruct cur as [w'|]; [|done].
      destruct w'; simpl; discriminate.
Qed.

Lemma split_ws_nonempty s : Forall (fun w => w <> "") (Py.split_ws s).
Proof. apply split_ws_go_nonempty. intros ? [=]. Qed.

Lemma split_length c s : List.length (Py.split c s) = S (Py.count c s).
Proof.
  induction s as [|d s IH]; [done|]. simpl.
  destruct (Py.split c s) as [|f fs]; [done|].
  simpl in IH. destruct (Py.eqc c d); simpl; lia.
Qed.

(** ** Computations that can raise *)

Lemma forM_OK {A B} (f : A -> result B) (g : A -> B) (xs : list A) :
  Forall (fun x => f x = OK (g x)) xs -> forM f xs = OK (g <$> xs).
Proof.
  induction 1 as [|x xs Hx _ IH]; [done|].
  csimpl. by rewrite Hx, IH.
Qed.

Lemma foldM_invariant {A S} (f : S -> A -> result S) (P : S -> Prop) xs :
  (forall s x s', P s -> f s x = OK s' -> P s') ->
  forall s s', P s -> foldM f s xs = OK s' -> P s'.
Proof.
  intros Hf. induction xs as [|x xs IH]; simpl; intros s s' Hs H.
  - by injection H as <-.
  - destruct (f s x) as [s1|e] eqn:E; [|done]. simpl in H. eauto.
Qed.


(** ** The configuration store *)

Lemma init_wf : wf_config SSHConfig.init.
Proof.
  split.
  - repeat constructor. by exists "*".
  - by exists {[ "host" := "*" ]}.
Qed.

Lemma alter_option_wf key value i _config :
  key <> "host" ->
  wf_config _config -> wf_config (alter (insert key value) i _config).
Proof.
  intros Hkey [Hall (r0 & Hhead & Hr0)]. split.
  - apply Forall_alter; [done|].
    intros r _ (p & Hp & Hne). exists p.
    by rewrite lookup_insert_ne.
  - destruct _config as [|r rest]; [done|]. injection Hhead as ->.
    destruct i as [|i]; simpl.
    + exists (<[key:=value]> r0). by rewrite lookup_insert_ne.
    + by exists r0.
Qed.

Lemma set_option_wf key value configs : forall _config,
  key <> "host" ->
  wf_config _config -> wf_config (SSHConfig.set_option key value _config configs).
Proof.
  unfold SSHConfig.set_option.
  induction configs as [|i configs IH]; intros cfg Hkey Hwf; [done|].
  simpl. apply IH; [done|]. by apply alter_option_wf.
Qed.

Lemma add_host_wf st host st' :
  host <> "" ->
  wf_config (fst st) -> SSHConfig.add_host st host = OK st' -> wf_config (fst st').
Proof.
  intros Hhost Hwf. destruct st as [cfg configs]. unfold SSHConfig.add_host.
  destruct (SSHConfig.find_rule cfg host) as [[i|]|e]; simpl; intros [= <-];
    [done|].
  destruct Hwf as [Hall (r0 & Hhead & Hr0)]. split; simpl.
  - apply Forall_app. split; [done|].
    repeat constructor. exists host. by rewrite lookup_singleton_eq.
  - exists r0. split; [|done]. by destruct cfg.
Qed.

Lemma add_hosts_wf hosts : forall st st',
  Forall (fun h => h <> "") hosts ->
  wf_config (fst st) ->
  foldM SSHConfig.add_host st hosts = OK st' -> wf_config (fst st').
Proof.
  induction hosts as [|h hosts IH]; simpl; intros st st' Hne Hwf H.
  - by injection H as <-.
  - apply Forall_cons in Hne as [Hh Hne].
    destruct (SSHConfig.add_host st h) as [st1|e] eqn:E; [|done].
    simpl in H. eapply IH; [done| |done]. by eapply add_host_wf.
Qed.

Lemma parse_line_wf st line st' :
  wf_config (fst st) -> SSHConfig.parse_line st line = OK st' -> wf_config (fst st').
Proof.
  intros Hwf. unfold SSHConfig.parse_line.
  set (l := Py.lstrip _).
  destruct (Py.is_empty l); [by intros [= <-]|].
  destruct (match l with String c _ => Py.eqc c "#" | _ => false end);
    [by intros [= <-]|].
  destruct (SSHConfig.split_line l) as [[key value]|e]; [|done]. simpl.
  destruct (String.eqb_spec key "host") as [->|Hkey].
  - intros H. eapply add_hosts_wf in H; [done| |done].
    apply split_ws_nonempty.
  - intros [= <-]. simpl. by apply set_option_wf.
Qed.

(** Every store that [parse] returns is well formed. *)
Lemma parse_wf file_obj _config :
  SSHConfig.parse SSHConfig.init file_obj = OK _config -> wf_config _config.
Proof.
  unfold SSHConfig.parse.
  destruct (foldM _ _ _) as [st|e] eqn:E; [|done]. simpl. intros [= <-].
  revert E. apply (foldM_invariant _ (fun st => wf_config (fst st))).
  - intros s x s'. apply parse_line_wf.
  - apply init_wf.
Qed.


(** ** Sorting by pattern length *)

Abbreviation len_le := (fun x y : string * dict =>
  (Py.len (fst x) <= Py.len (fst y))%nat).
Abbreviation has_len n := (fun x : string * dict => Py.len (fst x) = n).

Lemma insert_by_len_Permutation x l : SSHConfig.insert_by_len x l ≡ₚ x :: l.
Proof.
  induction l as [|y l IH]; simpl; [done|].
  destruct (Nat.leb_spec (Py.len (fst x)) (Py.len (fst y))); [done|].
  rewrite IH. apply Permutation_swap.
Qed.

Lemma sort_by_len_Permutation l : SSHConfig.sort_by_len l ≡ₚ l.
Proof.
  induction l as [|x l IH]; simpl; [done|].
  by rewrite insert_by_len_Permutation, IH.
Qed.

Lemma insert_by_len_HdRel y x l :
  len_le y x -> HdRel len_le y l -> HdRel len_le y (SSHConfig.insert_by_len x l).
Proof.
  intros Hyx Hl. destruct l as [|z l]; simpl; [by constructor|].
  destruct (Nat.leb_spec (Py.len (fst x)) (Py.len (fst z))).
  - by constructor.
  - constructor. by inversion Hl.
Qed.

Lemma insert_by_len_Sorted x l :
  Sorted len_le l -> Sorted len_le (SSHConfig.insert_by_len x l).
Proof.
  induction 1 as [|y l Hl IH Hhd]; simpl; [by repeat constructor|].
  destruct (Nat.leb_spec (Py.len (fst x)) (Py.len (fst y))).
  - constructor; [by constructor|]. by constructor.
  - constructor; [done|]. apply insert_by_len_HdRel; [simpl; lia|done].
Qed.

Lemma sort_by_len_Sorted l : Sorted len_le (SSHConfig.sort_by_len l).
Proof.
  induction l as [|x l IH]; simpl; [constructor|].
  by apply insert_by_len_Sorted.
Qed.

(** The sort is stable: the entries of one length keep their order. *)
Lemma insert_by_len_stable n x l :
  filter (has_len n) (SSHConfig.insert_by_len x l) = filter (has_len n) (x :: l).
Proof.
  induction l as [|y l IH]; simpl; [done|].
  destruct (Nat.leb_spec (Py.len (fst x)) (Py.len (fst y))) as [|Hlt]; [done|].
  rewrite (filter_cons _ y), IH, !filter_cons.
  repeat case_decide; simpl in *; try done; lia.
Qed.

Lemma sort_by_len_stable n l :
  filter (has_len n) (SSHConfig.sort_by_len l) = filter (has_len n) l.
Proof.
  induction l as [|x l IH]; simpl; [done|].
  rewrite insert_by_len_stable, !filter_cons, IH. done.
Qed.

(** ** Merging *)

Lemma foldl_update_lookup (ms : list (string * dict)) : forall (acc : dict) k,
  foldl (fun ret m => snd m ∪ ret) acc ms !! k =
  match last_binding (snd <$> ms) k with
  | Some v => Some v
  | None => acc !! k
  end.
Proof.
  induction ms as [|m ms IH]; intros acc k; csimpl; [done|].
  rewrite IH. destruct (last_binding (snd <$> ms) k); [done|].
  rewrite lookup_union. by destruct (snd m !! k), (acc !! k).
Qed.

Lemma update_all_lookup (ms : list (string * dict)) k :
  SSHConfig.update_all ms !! k = last_binding (snd <$> ms) k.
Proof.
  unfold SSHConfig.update_all. rewrite foldl_update_lookup.
  by destruct (last_binding _ _).
Qed.

(** A key is bound by the merge exactly when a rule binds it, and then to
    the value of the last rule that does. *)
Lemma last_binding_Some ms k v :
  last_binding ms k = Some v <->
  exists i m, ms !! i = Some m /\ m !! k = Some v /\
    forall j m', (i < j)%nat -> ms !! j = Some m' -> m' !! k = None.
Proof.
  revert v. induction ms as [|m ms IH]; intros v; simpl.
  - split; [done|]. by intros (i & m & Hi & _).
  - destruct (last_binding ms k) as [w|] eqn:E.
    + split.
      * intros [= ->]. destruct (proj1 (IH v) eq_refl) as (i & m0 & Hi & Hk & Hlast).
        exists (S i), m0. split_and!; [done..|].
        intros [|j] m' Hj; [lia|]. simpl. apply Hlast. lia.
      * intros (i & m0 & Hi & Hk & Hlast). destruct i as [|i].
        -- simpl in Hi. injection Hi as <-.
           destruct (proj1 (IH w) eq_refl) as (i' & m1 & Hi' & Hk' & _).
           specialize (Hlast (S i') m1). simpl in Hlast.
           rewrite Hlast in Hk'; [done|lia|done].
        -- apply IH. exists i, m0. split_and!; [done..|].
           intros j m' Hj. apply (Hlast (S j)). lia.
    + split.
      * intros Hm. exists 0%nat, m. split_and!; [done..|].
        intros [|j] m' Hj Hm'; [lia|]. simpl in Hm'.
        destruct (m' !! k) as [w|] eqn:Ew; [|done].
        assert (exists v', last_binding ms k = Some v') as [v' Hv'];
          [|by rewrite Hv' in E].
        clear -Hm' Ew. revert j Hm'. induction ms as [|a ms IH']; intros j Hj; [done|].
        simpl. destruct j as [|j]; simpl in Hj.
        -- injection Hj as ->. rewrite Ew. destruct (last_binding ms k); eauto.
        -- destruct (IH' _ Hj) as [v' ->]. eauto.
      * intros (i & m0 & Hi & Hk & Hlast). destruct i as [|i].
        -- simpl in Hi. by injection Hi as <-.
        -- enough (@None string = Some v) by done.
           apply IH. exists i, m0. split_and!; [done..|].
           intros j m' Hj. apply (Hlast (S j)). lia.
Qed.


(** ** The resolver *)

(** The pattern [*] matches every name. *)
Hypothesis fnmatch_star : forall name, fnmatch name "*" = true.

Abbreviation tag := (fun r : dict => (pattern r, r)).

Lemma filter_fmap_comm {A B} (f : A -> B) (P : B -> Prop)
    `{!forall x, Decision (P x)} (l : list A) :
  filter P (f <$> l) = f <$> filter (fun x => P (f x)) l.
Proof.
  induction l as [|x l IH]; [done|].
  csimpl. rewrite !filter_cons, IH. by case_decide.
Qed.

Lemma snd_tag (l : list dict) : snd <$> (tag <$> l) = l.
Proof. induction l as [|r l IH]; csimpl; [done|]. by rewrite IH. Qed.

Lemma tagged_eq (S : list (string * dict)) :
  Forall (fun x => fst x = pattern (snd x)) S -> S = tag <$> (snd <$> S).
Proof.
  induction 1 as [|[h r] S Hx _ IH]; csimpl; [done|].
  simpl in Hx. subst h. by rewrite <- IH.
Qed.

Lemma sort_tagged (l : list dict) :
  SSHConfig.sort_by_len (tag <$> l) =
  tag <$> (snd <$> SSHConfig.sort_by_len (tag <$> l)).
Proof.
  apply tagged_eq. rewrite sort_by_len_Permutation.
  apply Forall_forall. intros x Hx.
  apply list_elem_of_fmap in Hx as (r & -> & _). done.
Qed.

Lemma Sorted_tagged (ms : list dict) :
  Sorted len_le (tag <$> ms) ->
  Sorted (fun a b => (Py.len (pattern a) <= Py.len (pattern b))%nat) ms.
Proof.
  induction ms as [|a ms IH]; csimpl; [constructor|].
  intros H. apply Sorted_inv in H as [H Hhd]. constructor; [by apply IH|].
  destruct ms; csimpl in *; constructor. by apply HdRel_inv in Hhd.
Qed.

(** The rules of [lookup] after the sort are the matching rules in
    ascending order of pattern length, ties in parse order. *)
Lemma sorted_matching_ascending_stable _config hostname :
  ascending_stable (matching_rules _config hostname)
    (snd <$> SSHConfig.sort_by_len (tag <$> matching_rules _config hostname)).
Proof.
  set (M := matching_rules _config hostname). split.
  - apply Sorted_tagged. rewrite <- sort_tagged. apply sort_by_len_Sorted.
  - intros n.
    pose proof (sort_by_len_stable n (tag <$> M)) as H.
    rewrite (sort_tagged M) in H.
    rewrite !(filter_fmap_comm tag) in H. simpl in H.
    apply (f_equal (fmap snd)) in H. by rewrite !snd_tag in H.
Qed.

Lemma with_host_wf _config :
  wf_config _config -> forM SSHConfig.with_host _config = OK (tag <$> _config).
Proof.
  intros [Hall _]. apply forM_OK. eapply Forall_impl; [exact Hall|].
  intros r (p & Hp & _). unfold SSHConfig.with_host, getitem, pattern.
  by rewrite Hp.
Qed.

Lemma wildcard_matches _config hostname :
  wf_config _config -> matching_rules _config hostname <> [].
Proof.
  intros [_ (r0 & Hhead & Hr0)]. destruct _config as [|r rest]; [done|].
  injection Hhead as ->. unfold matching_rules.
  rewrite filter_cons. case_decide as Hd; [done|].
  destruct Hd. unfold pattern. rewrite Hr0. apply fnmatch_star.
Qed.

Lemma last_binding_host (ms : list dict) :
  ms <> [] -> Forall (fun r => is_Some (r !! "host")) ms ->
  is_Some (last_binding ms "host").
Proof.
  intros Hne Hall. destruct Hall as [|r ms Hr Hall]; [done|].
  simpl. destruct (last_binding ms "host"); eauto.
Qed.

(** On a well-formed store [lookup] does not raise, and its result is
    the merge of the sorted matching rules without the key 'host'. *)
Lemma lookup_wf _config hostname :
  wf_config _config ->
  SSHConfig.lookup fnmatch _config hostname =
  OK (delete "host" (SSHConfig.update_all
        (SSHConfig.sort_by_len (tag <$> matching_rules _config hostname)))).
Proof.
  intros Hwf. unfold SSHConfig.lookup.
  rewrite with_host_wf by done. simpl.
  rewrite (filter_fmap_comm tag).
  change (filter _ _config) with (matching_rules _config hostname).
  unfold SSHConfig.delitem.
  destruct (last_binding_host
    (snd <$> SSHConfig.sort_by_len (tag <$> matching_rules _config hostname)))
    as [v Hv].
  - intros Hnil. apply (wildcard_matches _config hostname Hwf).
    apply (f_equal (fmap tag)) in Hnil. rewrite <- sort_tagged in Hnil.
    apply Permutation_nil_r. rewrite <- (snd_tag (matching_rules _ _)).
    rewrite <- (sort_by_len_Permutation (tag <$> _)), Hnil. done.
  - apply Forall_forall. intros r Hr.
    apply list_elem_of_fmap in Hr as (x & -> & Hx).
    rewrite sort_by_len_Permutation in Hx.
    apply list_elem_of_fmap in Hx as (r & -> & Hr). simpl.
    apply list_elem_of_filter in Hr as [_ Hr].
    destruct Hwf as [Hall _]. rewrite Forall_forall in Hall.
    destruct (Hall r Hr) as (p & -> & _). eauto.
  - by rewrite update_all_lookup, Hv.
Qed.


(** C5.  For every store that [parse] returns and every hostname,
    [lookup] returns the merge of all the rules whose pattern matches the
    hostname, taken in ascending order of pattern length with ties in
    parse order, a later rule overwriting the keys of an earlier one, and
    without the key 'host'.  In particular, when the matching rules are
    the rule of [*] with port 22 and a host rule with port 2222, the
    port returned is 2222. *)
Theorem lookup_merges_matching_rules file_obj _config hostname :
  SSHConfig.parse SSHConfig.init file_obj = OK _config ->
  exists (ms : list dict) (ret : dict),
    ascending_stable (matching_rules _config hostname) ms /\
    SSHConfig.lookup fnmatch _config hostname = OK ret /\
    (forall k, ret !! k = if decide (k = "host") then None else last_binding ms k) /\
    (forall w r,
       matching_rules _config hostname = [w; r] ->
       pattern w = "*" ->
       w !! "port" = Some "22" -> r !! "port" = Some "2222" ->
       ret !! "port" = Some "2222").
Proof.
  intros Hparse. apply parse_wf in Hparse as Hwf.
  exists (snd <$> SSHConfig.sort_by_len (tag <$> matching_rules _config hostname)).
  eexists. split; [apply sorted_matching_ascending_stable|].
  split; [by apply lookup_wf|].
  assert (forall k : string,
    delete "host" (SSHConfig.update_all
      (SSHConfig.sort_by_len (tag <$> matching_rules _config hostname))) !! k =
    if decide (k = "host") then None
    else last_binding
      (snd <$> SSHConfig.sort_by_len (tag <$> matching_rules _config hostname)) k)
    as Hret.
  { intros k. rewrite lookup_delete. case_decide as Hk.
    - by rewrite decide_True.
    - rewrite decide_False by done. apply update_all_lookup. }
  split; [exact Hret|].
  intros w r HM Hw Hw22 Hr2222. rewrite Hret, decide_False by done.
  assert (r ∈ _config) as Hr.
  { assert (r ∈ matching_rules _config hostname) as Hin
      by (rewrite HM, !elem_of_cons; auto).
    by apply list_elem_of_filter in Hin as [_ ?]. }
  destruct Hwf as [Hall _]. rewrite Forall_forall in Hall.
  destruct (Hall r Hr) as (p & Hp & Hne).
  rewrite HM. csimpl. unfold pattern at 1 2. rewrite Hp. fold (pattern w).
  rewrite Hw. simpl.
  destruct p as [|c p]; [done|]. simpl. by rewrite Hr2222.
Qed.


(** ** The command of the transfer *)

Lemma remote_target_not_tilde hostname p : hostname +:+ ":" +:+ p <> "~".
Proof.
  destruct hostname as [|c [|d h]]; simpl; [done| |done].
  intros [= -> ?].
Qed.

Lemma endpoints_push host1 host2 options hostname :
  truthy (push options) = true ->
  config host2 !! "hostname" = Some hostname ->
  Scp.endpoints host1 host2 options =
  OK (host1, host2, path host1, hostname +:+ ":" +:+ path host2).
Proof.
  intros Hpush Hh. unfold Scp.endpoints, getitem. by rewrite Hpush, Hh.
Qed.

Lemma endpoints_pull host1 host2 options hostname :
  truthy (push options) = false ->
  config host1 !! "hostname" = Some hostname ->
  Scp.endpoints host1 host2 options =
  OK (host2, host1, hostname +:+ ":" +:+ path host1,
      if decide (path host2 = "") then "~" else path host2).
Proof.
  intros Hpush Hh. unfold Scp.endpoints, getitem. rewrite Hpush, Hh. simpl.
  by destruct (path host2).
Qed.

Lemma command_of_endpoints host1 host2 options connect_host remote_host source target :
  Scp.endpoints host1 host2 options = OK (connect_host, remote_host, source, target) ->
  Scp.command host1 host2 options =
  OK ([SSH_PATH; "-A"; "-t"] ++
      (if truthy (verbose options) then ["-v"] else []) ++
      [name connect_host; "scp"; "-p"] ++
      Scp.flags options ++
      (Scp.override <$> Scp.override_items (config remote_host)) ++
      [source; target]).
Proof. intros H. unfold Scp.command. by rewrite H. Qed.

(** C6.  In push mode the script connects to host1, the source is the
    path of host1 and the target is the resolved hostname of host2, a
    colon and the path of host2.  In pull mode it connects to host2, the
    source is the resolved hostname of host1, a colon and the path of
    host1, and the target is the path of host2, or [~] when that path is
    empty.  The remote host must have a resolved hostname. *)
Theorem scp_endpoints_by_direction host1 host2 options hostname :
  config (if truthy (push options) then host2 else host1) !! "hostname"
    = Some hostname ->
  exists connect_host source target outer inner,
    Scp.command host1 host2 options =
      OK ([SSH_PATH; "-A"; "-t"] ++ outer ++
          [name connect_host; "scp"; "-p"] ++ inner ++ [source; target]) /\
    (truthy (push options) = true ->
       connect_host = host1 /\
       source = path host1 /\
       target = hostname +:+ ":" +:+ path host2) /\
    (truthy (push options) = false ->
       connect_host = host2 /\
       source = hostname +:+ ":" +:+ path host1 /\
       target = if decide (path host2 = "") then "~" else path host2).
Proof.
  intros Hh. destruct (truthy (push options)) eqn:Hpush.
  - pose proof (endpoints_push host1 host2 options hostname Hpush Hh) as He.
    apply command_of_endpoints in He.
    exists host1, (path host1), (hostname +:+ ":" +:+ path host2),
      (if truthy (verbose options) then ["-v"] else []),
      (Scp.flags options ++ (Scp.override <$> Scp.override_items (config host2))).
    split; [|by split].
    rewrite He. by rewrite <- (app_assoc (Scp.flags options)).
  - pose proof (endpoints_pull host1 host2 options hostname Hpush Hh) as He.
    apply command_of_endpoints in He.
    exists host2, (hostname +:+ ":" +:+ path host1),
      (if decide (path host2 = "") then "~" else path host2),
      (if truthy (verbose options) then ["-v"] else []),
      (Scp.flags options ++ (Scp.override <$> Scp.override_items (config host1))).
    split; [|by split].
    rewrite He. by rewrite <- (app_assoc (Scp.flags options)).
Qed.

(** C10.  In push mode with an empty path of host2 the target is the
    resolved hostname of host2 followed by a colon and nothing else; a
    target of push mode is never [~], and a transfer whose target is
    [~] is a pull. *)
Theorem push_target_keeps_empty_path host1 host2 options hostname :
  truthy (push options) = true ->
  config host2 !! "hostname" = Some hostname ->
  exists target before,
    Scp.endpoints host1 host2 options = OK (host1, host2, path host1, target) /\
    Scp.command host1 host2 options = OK (before ++ [path host1; target]) /\
    target = hostname +:+ ":" +:+ path host2 /\
    target <> "~" /\
    (path host2 = "" -> target = hostname +:+ ":").
Proof.
  intros Hpush Hh.
  pose proof (endpoints_push host1 host2 options hostname Hpush Hh) as He.
  exists (hostname +:+ ":" +:+ path host2),
    ([SSH_PATH; "-A"; "-t"] ++
     (if truthy (verbose options) then ["-v"] else []) ++
     [name host1; "scp"; "-p"] ++ Scp.flags options ++
     (Scp.override <$> Scp.override_items (config host2))).
  split; [done|]. split.
  - rewrite (command_of_endpoints _ _ _ _ _ _ _ He).
    by rewrite <- !app_assoc.
  - split; [done|]. split; [apply remote_target_not_tilde|]. by intros ->.
Qed.

Lemma tilde_target_is_pull host1 host2 options connect_host remote_host source :
  Scp.endpoints host1 host2 options = OK (connect_host, remote_host, source, "~") ->
  truthy (push options) = false.
Proof.
  unfold Scp.endpoints. destruct (truthy (push options)); [|done].
  destruct (getitem _ _) as [h|]; simpl; [|done].
  intros [= _ _ _ H]. by apply remote_target_not_tilde in H.
Qed.


(** ** Keys never contain the byte [=] *)

Lemma break_at_no c s : Py.contains c (fst (Py.break (Py.eqc c) s)) = false.
Proof.
  induction s as [|d s IH]; simpl; [done|].
  destruct (Py.eqc c d) eqn:E; [done|].
  destruct (Py.break (Py.eqc c) s) as [a b]. simpl in *. by rewrite E.
Qed.

Lemma break_no c p s :
  Py.contains c s = false -> Py.contains c (fst (Py.break p s)) = false.
Proof.
  induction s as [|d s IH]; simpl; [done|].
  intros [Hd Hs]%orb_false_elim. destruct (p d); [done|].
  destruct (Py.break p s) as [a b]. simpl in *. rewrite Hd. by apply IH.
Qed.

Lemma lstrip_by_no c p s :
  Py.contains c s = false -> Py.contains c (Py.lstrip_by p s) = false.
Proof.
  induction s as [|d s IH]; simpl; [done|].
  intros H. destruct (p d); [|done].
  apply orb_false_elim in H as [_ H]. by apply IH.
Qed.

Lemma rstrip_by_no c p s :
  Py.contains c s = false -> Py.contains c (Py.rstrip_by p s) = false.
Proof.
  induction s as [|d s IH]; simpl; [done|].
  intros [Hd Hs]%orb_false_elim.
  destruct (Py.is_empty _ && p d); [done|]. simpl. rewrite Hd. by apply IH.
Qed.

Lemma lower_char_eq c : Py.eqc "=" (Py.lower_char c) = Py.eqc "=" c.
Proof. by destruct c as [[] [] [] [] [] [] [] []]. Qed.

Lemma lower_no s :
  Py.contains "=" s = false -> Py.contains "=" (Py.lower s) = false.
Proof.
  induction s as [|d s IH]; cbn [Py.contains Py.lower]; [done|].
  intros [Hd Hs]%orb_false_elim. rewrite lower_char_eq, Hd. by apply IH.
Qed.

Lemma split_line_plain line key value :
  SSHConfig.split_line line = OK (key, value) -> Py.contains "=" key = false.
Proof.
  unfold SSHConfig.split_line, Py.split1.
  destruct (Py.contains "=" line) eqn:E.
  - pose proof (break_at_no "=" line) as H.
    destruct (Py.break (Py.eqc "=") line) as [a b]. intros [= <- _].
    apply lower_no. unfold Py.strip, Py.strip_by.
    by apply rstrip_by_no, lstrip_by_no.
  - pose proof (break_no "=" Py.isspace line E) as H.
    destruct (Py.break Py.isspace line) as [a b].
    destruct (Py.is_empty b); [done|]. intros [= <- _]. by apply lower_no.
Qed.

Lemma init_plain : Forall plain_keys SSHConfig.init.
Proof.
  repeat constructor. intros k [v Hv].
  apply lookup_singleton_Some in Hv as [<- _]. done.
Qed.

Lemma set_option_plain key value configs : forall _config,
  Py.contains "=" key = false ->
  Forall plain_keys _config ->
  Forall plain_keys (SSHConfig.set_option key value _config configs).
Proof.
  unfold SSHConfig.set_option.
  induction configs as [|i configs IH]; intros cfg Hkey Hall; [done|].
  simpl. apply IH; [done|]. apply Forall_alter; [done|].
  intros r _ Hr k [v Hv]. destruct (decide (key = k)) as [<-|Hne]; [done|].
  rewrite lookup_insert_ne in Hv by done. apply Hr. eauto.
Qed.

Lemma add_host_plain st host st' :
  Forall plain_keys (fst st) -> SSHConfig.add_host st host = OK st' ->
  Forall plain_keys (fst st').
Proof.
  intros Hall. destruct st as [cfg configs]. unfold SSHConfig.add_host.
  destruct (SSHConfig.find_rule cfg host) as [[i|]|e]; simpl; intros [= <-];
    [done|].
  apply Forall_app. split; [done|]. repeat constructor.
  intros k [v Hv]. apply lookup_singleton_Some in Hv as [<- _]. done.
Qed.

Lemma parse_line_plain st line st' :
  Forall plain_keys (fst st) -> SSHConfig.parse_line st line = OK st' ->
  Forall plain_keys (fst st').
Proof.
  intros Hall. unfold SSHConfig.parse_line.
  set (l := Py.lstrip _).
  destruct (Py.is_empty l); [by intros [= <-]|].
  destruct (match l with String c _ => Py.eqc c "#" | _ => false end);
    [by intros [= <-]|].
  destruct (SSHConfig.split_line l) as [[key value]|e] eqn:E; [|done]. simpl.
  destruct (String.eqb key "host").
  - apply (foldM_invariant _ (fun st => Forall plain_keys (fst st))); [|done].
    intros s x s'. apply add_host_plain.
  - intros [= <-]. simpl. apply set_option_plain; [|done].
    by eapply split_line_plain.
Qed.

Lemma parse_plain file_obj _config :
  SSHConfig.parse SSHConfig.init file_obj = OK _config ->
  Forall plain_keys _config.
Proof.
  unfold SSHConfig.parse.
  destruct (foldM _ _ _) as [st|e] eqn:E; [|done]. simpl. intros [= <-].
  revert E. apply (foldM_invariant _ (fun st => Forall plain_keys (fst st))).
  - intros s x s'. apply parse_line_plain.
  - apply init_plain.
Qed.

Lemma last_binding_elem (ms : list dict) k v :
  last_binding ms k = Some v -> exists m, m ∈ ms /\ m !! k = Some v.
Proof.
  intros (i & m & Hi & Hk & _)%last_binding_Some.
  exists m. split; [|done]. by eapply list_elem_of_lookup_2.
Qed.

(** X19.  The options [lookup] resolves from a parsed file have plain keys. *)
Lemma lookup_plain_keys file_obj _config hostname ret :
  SSHConfig.parse SSHConfig.init file_obj = OK _config ->
  SSHConfig.lookup fnmatch _config hostname = OK ret ->
  plain_keys ret.
Proof.
  intros Hparse. pose proof (parse_plain _ _ Hparse) as Hplain.
  rewrite lookup_wf by (by eapply parse_wf). intros [= <-] k [v Hv].
  rewrite lookup_delete in Hv. case_decide; [done|].
  rewrite update_all_lookup in Hv.
  apply last_binding_elem in Hv as (m & Hm & Hk).
  apply list_elem_of_fmap in Hm as (x & -> & Hx).
  rewrite sort_by_len_Permutation in Hx.
  apply list_elem_of_fmap in Hx as (r & -> & Hr).
  apply list_elem_of_filter in Hr as [_ Hr].
  rewrite Forall_forall in Hplain. apply (Hplain r Hr). eauto.
Qed.


(** An override tells its option: two overrides of plain keys are equal
    only for the same key and the same value. *)
Lemma append_nil s : "" +:+ s = s.
Proof. reflexivity. Qed.

Lemma append_cons c s t : String c s +:+ t = String c (s +:+ t).
Proof. reflexivity. Qed.

Lemma key_value_inj k : forall k' v v',
  Py.contains "=" k = false -> Py.contains "=" k' = false ->
  k +:+ "=" +:+ v = k' +:+ "=" +:+ v' -> k = k' /\ v = v'.
Proof.
  induction k as [|c k IH]; intros [|c' k'] v v';
    rewrite ?append_cons, ?append_nil; simpl.
  - intros _ _ Heq. by injection Heq as ->.
  - intros _ H Heq. injection Heq as Hc _. subst c'. done.
  - intros H _ Heq. injection Heq as Hc _. subst c. done.
  - intros [_ Hk]%orb_false_elim [_ Hk']%orb_false_elim Heq.
    injection Heq as Hc Heq. subst c'.
    destruct (IH _ _ _ Hk Hk' Heq) as [-> ->]. done.
Qed.

Lemma override_inj kv kv' :
  Py.contains "=" (fst kv) = false -> Py.contains "=" (fst kv') = false ->
  Scp.override kv = Scp.override kv' -> kv = kv'.
Proof.
  destruct kv as [k v], kv' as [k' v']. unfold Scp.override. simpl.
  rewrite !append_cons, !append_nil. intros Hk Hk' [= Heq]. by destruct (key_value_inj _ _ _ _ Hk Hk' Heq) as [-> ->].
Qed.

Lemma override_items_elem (d : dict) k v :
  (k, v) ∈ Scp.override_items d <->
  d !! k = Some v /\ k <> "identityfile" /\ k <> "hostname".
Proof.
  unfold Scp.override_items. rewrite list_elem_of_filter, elem_of_map_to_list.
  simpl. rewrite !not_elem_of_cons. split.
  - by intros [(H1 & H2 & _) H].
  - intros (H & H1 & H2). split; [|done].
    split_and!; [done..|]. apply not_elem_of_nil.
Qed.

Lemma override_items_NoDup (d : dict) : NoDup (Scp.override_items d).
Proof. apply NoDup_filter, NoDup_map_to_list. Qed.

Lemma pretty_N_go_ne_o x s s' :
  s <> String "o" s' -> pretty_N_go x s <> String "o" s'.
Proof.
  revert s. induction (N.lt_wf_0 x) as [x _ IH]; intros s Hs.
  assert (x = 0 \/ 0 < x)%N as [->|Hx] by lia.
  - by rewrite pretty_N_go_0.
  - rewrite pretty_N_go_step by done. apply IH.
    { by apply N.div_lt. }
    unfold pretty_N_char. by repeat case_match.
Qed.

(** The number after [-l] is no override: it is made of digits, with a
    sign before them when it is negative. *)
Lemma str_not_override (v : pyvalue) s :
  truthy v = true -> str v <> "-o" +:+ s.
Proof.
  rewrite !append_cons, append_nil.
  destruct v as [|[]|[|p|p]]; simpl; try done.
  - intros _. unfold pretty, pretty_Z, pretty, pretty_positive, pretty, pretty_N.
    rewrite decide_False by done.
    by apply (pretty_N_go_ne_dash _ _ (String "o" s)).
  - intros _. unfold pretty, pretty_Z, pretty, pretty_positive, pretty, pretty_N.
    rewrite decide_False by done. rewrite append_cons, append_nil.
    intros [= H]. by apply pretty_N_go_ne_o in H.
Qed.

(** C7.  The command of the transfer is the outer [ssh] with its flags
    and the host to connect to, then the inner command: [scp -p], its
    flags, one argument [-o<option>=<value>] for each entry of the
    resolved options of the remote host other than 'identityfile' and
    'hostname', and last the source and the target.  The entries are
    distinct; when no option name holds the byte [=] so are the
    overrides, and no argument of the inner command before the source is
    an override of 'identityfile' or of 'hostname'.  The remote host
    must have a resolved hostname. *)
Theorem scp_overrides_remote_config host1 host2 options hostname :
  config (if truthy (push options) then host2 else host1) !! "hostname"
    = Some hostname ->
  exists remote_host connect_host items inner overrides source target,
    remote_host = (if truthy (push options) then host2 else host1) /\
    connect_host = (if truthy (push options) then host1 else host2) /\
    inner =
      ["scp"; "-p"] ++
      (if truthy (verbose options) then ["-v"] else []) ++
      (if truthy (limit options) then ["-l"; str (limit options)] else []) ++
      (if truthy (recursive options) then ["-r"] else []) ++
      (if truthy (compression options) then ["-C"] else []) /\
    overrides = (fun kv => "-o" +:+ fst kv +:+ "=" +:+ snd kv) <$> items /\
    Scp.command host1 host2 options =
      OK ([SSH_PATH; "-A"; "-t"] ++
          (if truthy (verbose options) then ["-v"] else []) ++
          [name connect_host] ++
          inner ++ overrides ++ [source; target]) /\
    NoDup items /\
    (forall k v,
       (k, v) ∈ items <->
       config remote_host !! k = Some v /\ k <> "identityfile" /\ k <> "hostname") /\
    (plain_keys (config remote_host) ->
       NoDup overrides /\
       forall v,
         (("-o" +:+ "identityfile" +:+ "=" +:+ v) ∉ inner ++ overrides) /\
         (("-o" +:+ "hostname" +:+ "=" +:+ v) ∉ inner ++ overrides)).
Proof.
  intros Hh.
  assert (exists source target,
    Scp.endpoints host1 host2 options =
    OK (if truthy (push options) then host1 else host2,
        if truthy (push options) then host2 else host1,
        source, target)) as (source & target & He).
  { destruct (truthy (push options)) eqn:Hpush.
    - eexists _, _. by apply endpoints_push.
    - eexists _, _. by apply endpoints_pull. }
  set (remote_host := if truthy (push options) then host2 else host1) in *.
  set (connect_host := if truthy (push options) then host1 else host2) in *.
  exists remote_host, connect_host, (Scp.override_items (config remote_host)).
  eexists _, _, source, target.
  split; [done|]. split; [done|]. split; [reflexivity|]. split; [reflexivity|].
  split.
  { rewrite (command_of_endpoints _ _ _ _ _ _ _ He). unfold Scp.flags.
    by rewrite <- !app_assoc. }
  split; [apply override_items_NoDup|].
  split; [apply override_items_elem|].
  intros Hplain.
  assert (forall kv, kv ∈ Scp.override_items (config remote_host) ->
    Py.contains "=" (fst kv) = false) as Hitems.
  { intros [k v] [Hk _]%override_items_elem. apply Hplain. eauto. }
  assert (forall k v,
    Py.contains "=" k = false -> (k = "identityfile" \/ k = "hostname") ->
    ("-o" +:+ k +:+ "=" +:+ v) ∉
      ["scp"; "-p"] ++
      (if truthy (verbose options) then ["-v"] else []) ++
      (if truthy (limit options) then ["-l"; str (limit options)] else []) ++
      (if truthy (recursive options) then ["-r"] else []) ++
      (if truthy (compression options) then ["-C"] else []) ++
      (Scp.override <$> Scp.override_items (config remote_host))) as Hno.
  { intros k v Hk Hkey.
    rewrite !not_elem_of_app. split_and!.
    - rewrite !append_cons, append_nil. rewrite !not_elem_of_cons.
      split_and!; [done..|]. apply not_elem_of_nil.
    - rewrite !append_cons, append_nil.
      destruct (truthy (verbose options)); [|apply not_elem_of_nil].
      rewrite !not_elem_of_cons. split; [done|]. apply not_elem_of_nil.
    - destruct (truthy (limit options)) eqn:Hl; [|apply not_elem_of_nil].
      rewrite !not_elem_of_cons. split_and!; [| |apply not_elem_of_nil].
      + by rewrite !append_cons, append_nil.
      + intros Heq. by apply (str_not_override _ _ Hl (eq_sym Heq)).
    - rewrite !append_cons, append_nil.
      destruct (truthy (recursive options)); [|apply not_elem_of_nil].
      rewrite !not_elem_of_cons. split; [done|]. apply not_elem_of_nil.
    - rewrite !append_cons, append_nil.
      destruct (truthy (compression options)); [|apply not_elem_of_nil].
      rewrite !not_elem_of_cons. split; [done|]. apply not_elem_of_nil.
    - intros (kv & Heq & Hkv)%list_elem_of_fmap.
      apply (override_inj (k, v) kv) in Heq; [|done|by apply Hitems].
      subst kv. apply override_items_elem in Hkv as (_ & Hk1 & Hk2).
      by destruct Hkey. }
  split.
  - apply NoDup_fmap_2_strong; [|apply override_items_NoDup].
    intros kv kv' Hkv Hkv'. apply (override_inj kv kv'); auto.
  - intros v. rewrite <- !app_assoc. split; apply Hno; auto.
Qed.


(** ** The host arguments *)

Lemma split_single c s p : Py.split c s = [p] -> s = p.
Proof.
  revert p. induction s as [|d s IH]; intros p; simpl.
  - by intros [= <-].
  - destruct (Py.split c s) as [|f fs]; [done|].
    destruct (Py.eqc c d); [done|]. intros [= <- ->]. by rewrite (IH f).
Qed.

Lemma split_pair c s n p : Py.split c s = [n; p] -> s = n +:+ String c p.
Proof.
  revert n p. induction s as [|d s IH]; intros n p; simpl; [done|].
  destruct (Py.split c s) as [|f fs] eqn:E; [done|].
  destruct (Ascii.eqb_spec c d) as [<-|Hne]; unfold Py.eqc.
  - rewrite Ascii.eqb_refl. intros [= <- -> ->].
    by rewrite (split_single _ _ _ E).
  - destruct (Ascii.eqb_spec c d) as [|_]; [done|].
    intros [= <- ->]. by rewrite (IH f p).
Qed.

Lemma split_at_first c n p :
  Py.contains c n = false -> Py.split c (n +:+ String c p) = n :: Py.split c p.
Proof.
  induction n as [|d n IH]; rewrite ?append_cons, ?append_nil; simpl.
  - intros _. unfold Py.eqc. rewrite Ascii.eqb_refl.
    pose proof (split_length c p). by destruct (Py.split c p).
  - intros [Hd Hn]%orb_false_elim. rewrite (IH Hn), Hd. done.
Qed.

Lemma unpack_host_one_colon arg :
  Py.count ":" arg = 1%nat ->
  exists n p, unpack_host arg = Some (n, p) /\ arg = n +:+ ":" +:+ p.
Proof.
  intros Hc. pose proof (split_length ":" arg) as Hlen. rewrite Hc in Hlen.
  unfold unpack_host.
  destruct (Py.split ":" arg) as [|n [|p [|q l]]] eqn:E; try done.
  exists n, p. split; [done|]. by apply split_pair in E.
Qed.

Lemma unpack_host_other arg :
  Py.count ":" arg <> 1%nat -> unpack_host arg = None.
Proof.
  intros Hc. pose proof (split_length ":" arg) as Hlen.
  unfold unpack_host.
  destruct (Py.split ":" arg) as [|n [|p [|q l]]] eqn:E; try done.
  simpl in Hlen. lia.
Qed.

Lemma unpack_host_empty_path n :
  Py.contains ":" n = false -> unpack_host (n +:+ ":") = Some (n, "").
Proof. intros Hn. unfold unpack_host. by rewrite split_at_first. Qed.

(** C9.  When the command line parses to two positional arguments, each
    is accepted exactly when it holds one colon: then the transfer is run
    on the two texts around the colon, and an argument that ends with its
    only colon has the empty path.  When one of them holds no colon or
    more than one, the run ends with the usage error and the exit status
    2, and nothing else has happened: the configuration is not read. *)
Theorem main_accepts_one_colon argv options arg1 arg2 st :
  OptParse.parse_args parse_int argv = OptParse.Done (options, [arg1; arg2]) ->
  (Py.count ":" arg1 = 1%nat -> Py.count ":" arg2 = 1%nat ->
     exists host1 host2,
       arg1 = fst host1 +:+ ":" +:+ snd host1 /\
       arg2 = fst host2 +:+ ":" +:+ snd host2 /\
       main argv st = main_transfer host1 host2 options st) /\
  (Py.count ":" arg1 <> 1%nat \/ Py.count ":" arg2 <> 1%nat ->
     main argv st =
       (log (ParserError HostnamePathForm) st, Raise (SystemExit 2))) /\
  (forall name1 name2,
     Py.contains ":" name1 = false -> Py.contains ":" name2 = false ->
     arg1 = name1 +:+ ":" -> arg2 = name2 +:+ ":" ->
     main argv st = main_transfer (name1, "") (name2, "") options st).
Proof.
  intros Hparse. unfold main. rewrite Hparse. split_and!.
  - intros (n1 & p1 & -> & ?)%unpack_host_one_colon
           (n2 & p2 & -> & ?)%unpack_host_one_colon.
    by exists (n1, p1), (n2, p2).
  - intros [H|H].
    + by rewrite (unpack_host_other _ H).
    + rewrite (unpack_host_other _ H). by destruct (unpack_host arg1).
  - intros name1 name2 H1 H2 -> ->. by rewrite !unpack_host_empty_path.
Qed.


(** ** Steps of the run *)

Lemma stops_app t1 t2 : stops (t1 ++ t2) = (stops t1 + stops t2)%nat.
Proof. unfold stops. by rewrite List.filter_app, length_app. Qed.

Lemma not_popen_not_stop e : is_popen e = false -> is_stop e = false.
Proof. by destruct e. Qed.

Lemma quiet_stops evs :
  Forall (fun e => is_popen e = false) evs -> stops evs = 0%nat.
Proof.
  induction 1 as [|e evs He _ IH]; [done|].
  unfold stops in *. simpl. by rewrite (not_popen_not_stop e He).
Qed.

#[local] Instance quiet_preorder : PreOrder quiet.
Proof.
  split.
  - intros st. split_and!; [done..|]. exists []. by rewrite app_nil_r.
  - intros st1 st2 st3 (He & Hw & Hf & evs & Ht & Hq)
      (He' & Hw' & Hf' & evs' & Ht' & Hq').
    split_and!; [congruence..|]. exists (evs ++ evs'). split.
    + by rewrite Ht', Ht, app_assoc.
    + by apply Forall_app.
Qed.

#[local] Instance stopped_0_preorder : PreOrder (stopped 0).
Proof.
  split.
  - intros st. exists []. by rewrite app_nil_r.
  - intros st1 st2 st3 (evs & Ht & Hs) (evs' & Ht' & Hs').
    exists (evs ++ evs'). split.
    + by rewrite Ht', Ht, app_assoc.
    + by rewrite stops_app, Hs, Hs'.
Qed.

Lemma stopped_trans n m st1 st2 st3 :
  stopped n st1 st2 -> stopped m st2 st3 -> stopped (n + m) st1 st3.
Proof.
  intros (evs & Ht & Hs) (evs' & Ht' & Hs'). exists (evs ++ evs'). split.
  - by rewrite Ht', Ht, app_assoc.
  - by rewrite stops_app, Hs, Hs'.
Qed.

Lemma quiet_stopped st st' : quiet st st' -> stopped 0 st st'.
Proof.
  intros (_ & _ & _ & evs & Ht & Hq). exists evs. split; [done|].
  by apply quiet_stops.
Qed.

Section Preserves.

Context (R : state -> state -> Prop) `{!PreOrder R}.

Lemma preserves_ret {A} (a : A) : preserves R (ret a).
Proof. intros st. reflexivity. Qed.

Lemma preserves_raise {A} e : preserves R (raise (A:=A) e).
Proof. intros st. reflexivity. Qed.

Lemma preserves_lift {A} (r : result A) : preserves R (lift r).
Proof. intros st. reflexivity. Qed.

Lemma preserves_bind {A B} (m : M A) (k : A -> M B) :
  preserves R m -> (forall a, preserves R (k a)) -> preserves R (bind m k).
Proof.
  intros Hm Hk st. unfold bind. specialize (Hm st).
  destruct (m st) as [st' [a|e]]; simpl in *; [|done].
  etrans; [exact Hm|]. apply Hk.
Qed.

Lemma preserves_try_finally {A} (body : M A) (final : M unit) :
  preserves R body -> preserves R final -> preserves R (try_finally body final).
Proof.
  intros Hb Hf st. unfold try_finally. specialize (Hb st).
  destruct (body st) as [st1 r]. specialize (Hf st1).
  destruct (final st1) as [st2 [[]|e]]; simpl in *; by etrans.
Qed.

Lemma preserves_try_except {A} (body : M A) handler :
  preserves R body -> (forall v, preserves R (handler v)) ->
  preserves R (try_except_ScpError body handler).
Proof.
  intros Hb Hh st. unfold try_except_ScpError. specialize (Hb st).
  destruct (body st) as [st1 [a|[v| | |]]]; simpl in *; try done.
  etrans; [exact Hb|]. apply Hh.
Qed.

End Preserves.

Lemma emit_quiet e : is_popen e = false -> preserves quiet (emit e).
Proof.
  intros He st. simpl. split_and!; [done..|]. exists [e]. split; [done|].
  by repeat constructor.
Qed.

Lemma read_ssh_config_quiet : preserves quiet read_ssh_config.
Proof.
  apply preserves_bind; [apply _|by apply emit_quiet|].
  intros _ st. reflexivity.
Qed.

Lemma list_known_hosts_quiet sshconfig : preserves quiet (list_known_hosts sshconfig).
Proof.
  apply preserves_bind; [apply _|apply preserves_lift, _|].
  intros hs. destruct (filter _ _); [apply preserves_ret, _|].
  by apply emit_quiet.
Qed.

Lemma check_known_quiet sshconfig host : preserves quiet (check_known sshconfig host).
Proof.
  unfold check_known. case_decide; [|apply preserves_ret, _].
  apply preserves_bind; [apply _|apply list_known_hosts_quiet|].
  intros _. apply preserves_raise, _.
Qed.

Lemma resolve_hosts_quiet sshconfig host1 host2 :
  preserves quiet (resolve_hosts sshconfig host1 host2).
Proof.
  unfold resolve_hosts.
  apply preserves_bind; [apply _|apply preserves_lift, _|]. intros config1.
  apply preserves_bind; [apply _|apply preserves_lift, _|]. intros config2.
  apply preserves_bind; [apply _|apply check_known_quiet|]. intros _.
  apply preserves_bind; [apply _|apply check_known_quiet|]. intros _.
  apply preserves_ret, _.
Qed.

Lemma handler_quiet value :
  preserves quiet (bind (emit (PrintError value)) (fun _ => raise (A:=unit) (SystemExit 2))).
Proof.
  apply preserves_bind; [apply _|by apply emit_quiet|].
  intros _. apply preserves_raise, _.
Qed.


(** ** Unknown hosts *)

(** A host that matches only rules without options resolves to the
    empty dict. *)
Lemma lookup_unknown _config hostname :
  wf_config _config ->
  (forall r, r ∈ matching_rules _config hostname -> r = {[ "host" := "*" ]}) ->
  SSHConfig.lookup fnmatch _config hostname = OK ∅.
Proof.
  intros Hwf Hbare. rewrite lookup_wf by done. f_equal.
  apply map_eq. intros k. rewrite lookup_empty, lookup_delete.
  case_decide; [done|]. rewrite update_all_lookup.
  destruct (last_binding _ k) as [v|] eqn:E; [|done].
  apply last_binding_elem in E as (m & Hm & Hk).
  apply list_elem_of_fmap in Hm as (x & -> & Hx).
  rewrite sort_by_len_Permutation in Hx.
  apply list_elem_of_fmap in Hx as (r & -> & Hr).
  rewrite (Hbare r Hr) in Hk. simpl in Hk.
  apply lookup_singleton_Some in Hk as [<- _]. done.
Qed.


(** ** The agent *)

Lemma run_command_eq command io env st :
  exists w r,
    run_command command io env st =
    (log (Popen command
            match env with os_environ => environ st | env_dict d => d end io)
         (with_world w st), r).
Proof.
  unfold run_command. destruct (popen _ _ _ _) as [w p].
  destruct p as [|ret output]; [by eexists _, _|].
  destruct (ret =? 0); by eexists _, _.
Qed.

Lemma run_command_stopped command io env :
  (forall e, is_stop (Popen command e io) = false) ->
  preserves (stopped 0) (run_command command io env).
Proof.
  intros Hc st. destruct (run_command_eq command io env st) as (w & r & ->).
  simpl. eexists [_]. split; [done|]. unfold stops, List.filter. by rewrite Hc.
Qed.

Lemma get_ssh_agent_env_stopped agent : preserves (stopped 0) (get_ssh_agent_env agent).
Proof. intros st. simpl. exists []. by rewrite app_nil_r. Qed.

Lemma ssh_agent_load_keys_stopped agent files :
  preserves (stopped 0) (ssh_agent_load_keys agent files).
Proof.
  unfold ssh_agent_load_keys. destruct files as [|f files].
  { apply preserves_ret, _. }
  apply preserves_bind; [apply _|apply get_ssh_agent_env_stopped|]. intros env.
  apply preserves_bind; [apply _| |intros _; apply preserves_ret, _].
  apply run_command_stopped. intros e. by destruct files as [|? [|]].
Qed.

Lemma scp_stopped agent host1 host2 options :
  preserves (stopped 0) (scp agent host1 host2 options).
Proof.
  unfold scp. intros st. unfold bind at 1, lift.
  destruct (Scp.command host1 host2 options) as [command|e] eqn:E;
    [|simpl; reflexivity].
  revert st. apply preserves_bind; [apply _|apply get_ssh_agent_env_stopped|].
  intros env.
  apply preserves_bind; [apply _| |intros _; apply preserves_ret, _].
  apply run_command_stopped. intros e.
  unfold Scp.command in E. destruct (Scp.endpoints _ _ _) as [[[[c r] s] t]|];
    [|done].
  simpl in E. injection E as <-. done.
Qed.

Lemma ssh_agent_stop_stopped agent : preserves (stopped 1) (ssh_agent_stop agent).
Proof.
  intros st. unfold ssh_agent_stop, bind, get_ssh_agent_env.
  destruct (run_command_eq [SSH_AGENT_PATH; "-k"] PIPE os_environ
              (with_environ (agent ∪ environ st) st)) as (w & r & ->).
  destruct r; simpl; by exists [Popen [SSH_AGENT_PATH; "-k"] (agent ∪ environ st) PIPE].
Qed.

(** The stop step is taken once by the guarded transfer of a run that
    started its agent and never by one that did not, whatever the keys
    and the transfer return or raise. *)
Lemma transfer_with_agent_stopped agent (agent_started : bool) host1 host2 options :
  preserves (stopped (if agent_started then 1%nat else 0%nat))
    (transfer_with_agent agent agent_started host1 host2 options).
Proof.
  intros st. unfold transfer_with_agent, try_finally.
  pose proof (preserves_bind (stopped 0) _ _
    (ssh_agent_load_keys_stopped agent (identity_files host1 host2))
    (fun _ => scp_stopped agent host1 host2 options) st) as Hbody.
  destruct (bind _ _ st) as [st1 r]. simpl in Hbody.
  destruct agent_started.
  - pose proof (ssh_agent_stop_stopped agent st1) as Hstop.
    destruct (ssh_agent_stop agent st1) as [st2 [[]|e]]; simpl in *;
      apply (stopped_trans 0 1 _ _ _ Hbody Hstop).
  - done.
Qed.

Lemma ssh_agent_start_stopped : preserves (stopped 0) ssh_agent_start.
Proof.
  unfold ssh_agent_start.
  apply preserves_bind; [apply _|by apply run_command_stopped|].
  intros output. destruct (AgentOutput.findall output); [apply preserves_raise, _|].
  apply preserves_bind; [apply _|apply preserves_lift, _|].
  intros _. apply preserves_ret, _.
Qed.

(** The session is owned exactly when no socket was inherited. *)
Lemma acquire_agent_inherited st sock :
  environ st !! "SSH_AUTH_SOCK" = Some sock ->
  acquire_agent st = (st, OK ({[ "SSH_AUTH_SOCK" := sock ]}, false)).
Proof.
  intros H. unfold acquire_agent, bind, get_ssh_agent. rewrite H.
  rewrite decide_False; [done|]. apply insert_non_empty.
Qed.

Lemma acquire_agent_started st :
  environ st !! "SSH_AUTH_SOCK" = None ->
  acquire_agent st =
  match ssh_agent_start st with
  | (st', OK agent) => (st', OK (agent, true))
  | (st', Raise e) => (st', Raise e)
  end.
Proof. intros H. unfold acquire_agent, bind at 1, get_ssh_agent. by rewrite H. Qed.

Lemma acquire_agent_owned st st' agent owned :
  acquire_agent st = (st', OK (agent, owned)) ->
  owned = true <-> environ st !! "SSH_AUTH_SOCK" = None.
Proof.
  destruct (environ st !! "SSH_AUTH_SOCK") as [sock|] eqn:E.
  - rewrite (acquire_agent_inherited _ _ E). by intros [= _ _ <-].
  - rewrite (acquire_agent_started _ E).
    destruct (ssh_agent_start st) as [st1 [a|e]]; [|done]. by intros [= _ _ <-].
Qed.

Lemma acquire_agent_stopped : preserves (stopped 0) acquire_agent.
Proof.
  intros st. destruct (environ st !! "SSH_AUTH_SOCK") as [sock|] eqn:E.
  - rewrite (acquire_agent_inherited _ _ E). reflexivity.
  - rewrite (acquire_agent_started _ E).
    pose proof (ssh_agent_start_stopped st) as H.
    by destruct (ssh_agent_start st) as [st1 [a|e]].
Qed.


Lemma except_stopped {A} n (body : M A) handler st :
  (forall v, preserves (stopped 0) (handler v)) ->
  stopped n st (fst (body st)) ->
  stopped n st (fst (try_except_ScpError body handler st)).
Proof.
  intros Hh Hb. unfold try_except_ScpError.
  destruct (body st) as [st1 [a|[v| | |]]]; simpl in *; try done.
  rewrite <- (Nat.add_0_r n). eapply stopped_trans; [exact Hb|]. apply Hh.
Qed.

Lemma handler_stopped value :
  preserves (stopped 0)
    (bind (emit (PrintError value)) (fun _ => raise (A:=unit) (SystemExit 2))).
Proof. intros st. apply quiet_stopped, handler_quiet. Qed.

(** C4.  The session of a run is owned exactly when no SSH_AUTH_SOCK was
    inherited at the time it was obtained.  The guarded transfer takes
    the stop step once when the session is owned and never when it is
    not, whatever the loading of the keys and the transfer return or
    raise.  So does the whole run: the number [n] of its stop steps is 1
    when it obtains an owned session, 0 when it obtains an inherited one,
    and 0 when it obtains none. *)
Theorem agent_stopped_once_iff_owned host1 host2 options st :
  (forall st' agent owned,
     acquire_agent st = (st', OK (agent, owned)) ->
     owned = true <-> environ st !! "SSH_AUTH_SOCK" = None) /\
  (forall agent (owned : bool) h1 h2,
     stopped (if owned then 1%nat else 0%nat) st
       (fst (transfer_with_agent agent owned h1 h2 options st))) /\
  exists n : nat,
    stopped n st (fst (main_transfer host1 host2 options st)) /\
    (is_Some (environ st !! "SSH_AUTH_SOCK") -> n = 0%nat) /\
    (forall _config st1 hosts st2 agent (owned : bool) st3,
       read_ssh_config st = (st1, OK _config) ->
       resolve_hosts _config host1 host2 st1 = (st2, OK hosts) ->
       acquire_agent st2 = (st3, OK (agent, owned)) ->
       n = (if owned then 1%nat else 0%nat) /\
       (owned = true <-> environ st !! "SSH_AUTH_SOCK" = None)) /\
    (n = 1%nat ->
       exists _config st1 hosts st2 agent st3,
         read_ssh_config st = (st1, OK _config) /\
         resolve_hosts _config host1 host2 st1 = (st2, OK hosts) /\
         acquire_agent st2 = (st3, OK (agent, true))) /\
    (n = 0%nat \/ n = 1%nat).
Proof.
  split; [intros st' agent owned; apply acquire_agent_owned|].
  split; [intros; apply transfer_with_agent_stopped|].
  unfold main_transfer, bind at 1.
  pose proof (read_ssh_config_quiet st) as Hq1.
  destruct (read_ssh_config st) as [st1 [cfg|e]] eqn:E1; simpl in Hq1.
  2: { exists 0%nat. split; [by apply quiet_stopped|].
       split_and!; [done|done|done|by left]. }
  pose proof (resolve_hosts_quiet cfg host1 host2 st1) as Hq2.
  destruct (resolve_hosts cfg host1 host2 st1) as [st2 [[h1 h2]|e]] eqn:E2;
    simpl in Hq2.
  2: { exists 0%nat. split.
       - replace 0%nat with (0 + 0)%nat by done.
         eapply stopped_trans; [by apply quiet_stopped|].
         apply except_stopped; [apply handler_stopped|].
         unfold bind at 1. rewrite E2. simpl. by apply quiet_stopped.
       - split_and!; [done| |done|by left].
         intros ??????? [= <- <-]. by rewrite E2. }
  assert (environ st2 = environ st) as Henv.
  { pose proof (proj1 Hq1). pose proof (proj1 Hq2). congruence. }
  pose proof (acquire_agent_stopped st2) as Hs3.
  destruct (acquire_agent st2) as [st3 [[agent owned]|e]] eqn:E3; simpl in Hs3.
  2: { exists 0%nat. split.
       - replace 0%nat with (0 + 0)%nat by done.
         eapply stopped_trans; [by apply quiet_stopped|].
         apply except_stopped; [apply handler_stopped|].
         unfold bind at 1. rewrite E2. unfold bind at 1. rewrite E3. simpl.
         replace 0%nat with (0 + 0)%nat by done.
         eapply stopped_trans; [by apply quiet_stopped|done].
       - split_and!; [done| |done|by left].
         intros ??????? [= <- <-]. rewrite E2. intros [= <- <-]. by rewrite E3. }
  pose proof (acquire_agent_owned _ _ _ _ E3) as Howned. rewrite Henv in Howned.
  exists (if owned then 1%nat else 0%nat). split.
  - replace (if owned then 1 else 0)%nat
      with (0 + (0 + (0 + (if owned then 1 else 0))))%nat by done.
    eapply stopped_trans; [by apply quiet_stopped|].
    apply except_stopped; [apply handler_stopped|].
    unfold bind at 1. rewrite E2. unfold bind at 1. rewrite E3.
    eapply stopped_trans; [by apply quiet_stopped|].
    eapply stopped_trans; [exact Hs3|].
    apply transfer_with_agent_stopped.
  - split_and!.
    + intros [sock Hsock]. destruct owned; [|done].
      destruct Howned as [Howned _]. by rewrite Howned in Hsock.
    + intros ??????? [= <- <-]. rewrite E2. intros [= <- <-]. rewrite E3.
      by intros [= <- <- <-].
    + intros Hn. destruct owned; [|done]. by eexists _, _, _, _, _, _.
    + destruct owned; auto.
Qed.


(** ** The environment of the children *)

Lemma run_in_agent_env agent command io st :
  exists w r,
    bind (get_ssh_agent_env agent)
         (fun env => bind (run_command command io env) (fun _ => ret tt)) st =
    (log (Popen command (agent ∪ environ st) io)
         (with_world w (with_environ (agent ∪ environ st) st)), r).
Proof.
  unfold bind at 1, get_ssh_agent_env. unfold bind.
  destruct (run_command_eq command io os_environ
              (with_environ (agent ∪ environ st) st)) as (w & r & ->).
  destruct r; by eexists _, _.
Qed.

Lemma ssh_agent_load_keys_eq agent f files st :
  exists w r,
    ssh_agent_load_keys agent (f :: files) st =
    (log (Popen (SSH_ADD_PATH :: f :: files) (agent ∪ environ st) sys_stdio)
         (with_world w (with_environ (agent ∪ environ st) st)), r).
Proof. apply run_in_agent_env. Qed.

Lemma ssh_agent_stop_eq agent st :
  exists w r,
    ssh_agent_stop agent st =
    (log (Popen [SSH_AGENT_PATH; "-k"] (agent ∪ environ st) PIPE)
         (with_world w (with_environ (agent ∪ environ st) st)), r).
Proof. apply run_in_agent_env. Qed.

Lemma scp_eq agent host1 host2 options command st :
  Scp.command host1 host2 options = OK command ->
  exists w r,
    scp agent host1 host2 options st =
    (log (Popen command (agent ∪ environ st) sys_stdio)
         (with_world w (with_environ (agent ∪ environ st) st)), r).
Proof.
  intros H. unfold scp, bind at 1, lift. rewrite H. apply run_in_agent_env.
Qed.

Lemma scp_raises agent host1 host2 options e st :
  Scp.command host1 host2 options = Raise e ->
  scp agent host1 host2 options st = (st, Raise e).
Proof. intros H. unfold scp, bind at 1, lift. by rewrite H. Qed.

(** C8.  [get_ssh_agent_env] returns [os.environ] itself, updated in
    place with the variables of the agent, which win over the variables
    it had.  Every step that builds the environment of a child this way
    (the loading of keys, the transfer, the stop of the agent) leaves the
    variables of the agent in the environment of the run, where the
    later steps keep them. *)
Theorem get_ssh_agent_env_mutates_os_environ agent st :
  get_ssh_agent_env agent st =
    (with_environ (agent ∪ environ st) st, OK os_environ) /\
  (forall k v, agent !! k = Some v -> (agent ∪ environ st) !! k = Some v) /\
  (forall (step : M unit) command io,
     (exists f files,
        step = ssh_agent_load_keys agent (f :: files) /\
        command = SSH_ADD_PATH :: f :: files /\ io = sys_stdio) \/
     (exists host1 host2 options,
        step = scp agent host1 host2 options /\
        Scp.command host1 host2 options = OK command /\ io = sys_stdio) \/
     (step = ssh_agent_stop agent /\
        command = [SSH_AGENT_PATH; "-k"] /\ io = PIPE) ->
     environ (fst (step st)) = agent ∪ environ st /\
     trace (fst (step st)) =
       trace st ++ [Popen command (agent ∪ environ st) io]) /\
  (forall step : M unit,
     (exists files, step = ssh_agent_load_keys agent files) \/
     (exists host1 host2 options, step = scp agent host1 host2 options) \/
     step = ssh_agent_stop agent ->
     agent ⊆ environ st ->
     environ (fst (step st)) = environ st /\ agent ⊆ environ (fst (step st))).
Proof.
  split; [done|]. split.
  { intros k v Hk. by apply lookup_union_Some_l. }
  split.
  - intros step command io [(f & files & -> & -> & ->)|
      [(host1 & host2 & options & -> & Hc & ->)|(-> & -> & ->)]].
    + by destruct (ssh_agent_load_keys_eq agent f files st) as (w & r & ->).
    + by destruct (scp_eq agent host1 host2 options command st Hc) as (w & r & ->).
    + by destruct (ssh_agent_stop_eq agent st) as (w & r & ->).
  - intros step Hstep Hsub.
    assert (agent ∪ environ st = environ st) as Hid
      by by apply map_subseteq_union.
    assert (environ (fst (step st)) = environ st) as Heq; [|by rewrite Heq].
    destruct Hstep as [[files ->]|[(host1 & host2 & options & ->)| ->]].
    + destruct files as [|f files]; [done|].
      by destruct (ssh_agent_load_keys_eq agent f files st) as (w & r & ->).
    + destruct (Scp.command host1 host2 options) as [command|e] eqn:Hc.
      * by destruct (scp_eq agent host1 host2 options command st Hc) as (w & r & ->).
      * by rewrite (scp_raises _ _ _ _ _ _ Hc).
    + by destruct (ssh_agent_stop_eq agent st) as (w & r & ->).
Qed.


(** ** The compression option *)

(** [options.compression] is [None] or [False]. *)
Abbreviation compression_off values :=
  (compression values = PyNone \/ compression values = PyBool false).

Lemma option_list_compression o :
  o ∈ OptParse.option_list ->
  OptParse.opt_dest o = Some OptParse.d_compression ->
  OptParse.opt_action o = OptParse.store_false.
Proof.
  unfold OptParse.option_list. rewrite !elem_of_cons, elem_of_nil.
  intros [->|[->|[->|[->|[->|[->|[->|[]]]]]]]]; done.
Qed.

Lemma find_option_elem o x :
  list_find (fun y => o ∈ OptParse.opt_strings y) OptParse.option_list ≫=
    (fun ix => Some (snd ix)) = Some x ->
  x ∈ OptParse.option_list.
Proof.
  destruct (list_find _ _) as [[i y]|] eqn:E; [|done]. simpl. intros [= <-].
  apply list_find_Some in E as (Hi & _). by eapply list_elem_of_lookup_2.
Qed.

Lemma process_compression o opt value values values' :
  o ∈ OptParse.option_list -> compression_off values ->
  OptParse.process parse_int o opt value values = OptParse.Done values' ->
  compression_off values'.
Proof.
  intros Ho Hoff. pose proof (option_list_compression o Ho) as Hc.
  unfold OptParse.process.
  destruct (OptParse.opt_action o), (OptParse.opt_dest o) as [d|];
    try (by intros [= <-]); try done.
  - destruct value as [v|]; [|done]. destruct (parse_int v); [|done].
    intros [= <-]. destruct d; simpl; try done. by specialize (Hc eq_refl).
  - intros [= <-]. destruct d; simpl; try done. by specialize (Hc eq_refl).
  - intros [= <-]. destruct d; simpl; auto.
Qed.

Lemma process_short_opts_compression chars : forall values values' pending,
  compression_off values ->
  OptParse.process_short_opts parse_int chars values = OptParse.Done (values', pending) ->
  compression_off values' /\
  (forall o opt, pending = Some (o, opt) -> o ∈ OptParse.option_list).
Proof.
  induction chars as [|ch rest IH]; intros values values' pending Hoff; simpl.
  - by intros [= <- <-].
  - destruct (OptParse.short_opt _) as [o|] eqn:Eo; [|done].
    apply find_option_elem in Eo.
    destruct (OptParse.takes_value o).
    + destruct rest as [|c rest'].
      * intros [= <- <-]. split; [done|]. by intros ?? [= <- _].
      * destruct (OptParse.process _ _ _ _ _) as [v'| |] eqn:Ep; try done.
        intros [= <- <-]. split; [|done]. by eapply process_compression.
    + destruct (OptParse.process _ _ _ _ _) as [v'| |] eqn:Ep; try done.
      apply IH. by eapply process_compression.
Qed.

Lemma process_long_opt_compression arg values values' :
  compression_off values ->
  OptParse.process_long_opt parse_int arg values = OptParse.Done values' ->
  compression_off values'.
Proof.
  intros Hoff. unfold OptParse.process_long_opt.
  destruct (OptParse.match_abbrev _) as [opt| |]; try done.
  destruct (OptParse.long_opt opt) as [o|] eqn:Eo; [|done].
  apply find_option_elem in Eo.
  destruct (OptParse.takes_value o); [done|].
  destruct (Py.contains "=" arg); [done|]. by apply process_compression.
Qed.

Lemma process_args_compression rargs : forall values largs pending values' args,
  compression_off values ->
  (forall o opt, pending = Some (o, opt) -> o ∈ OptParse.option_list) ->
  OptParse.process_args parse_int values largs pending rargs
    = OptParse.Done (values', args) ->
  compression_off values'.
Proof.
  induction rargs as [|arg rargs IH]; intros values largs pending values' args
    Hoff Hpending; simpl.
  - destruct pending as [[o opt]|]; [done|]. by intros [= <- _].
  - destruct pending as [[o opt]|].
    + destruct (OptParse.process _ _ _ _ _) as [v'| |] eqn:Ep; try done.
      apply IH; [|done]. eapply process_compression; [|done..]. by eapply Hpending.
    + destruct (String.eqb arg "--"); [by intros [= <- _]|].
      destruct (String.prefix "--" arg).
      * destruct (OptParse.process_long_opt _ _ _) as [v'| |] eqn:Ep; try done.
        apply IH; [|done]. by eapply process_long_opt_compression.
      * destruct (OptParse.short_chars arg) as [chars|]; [|by apply IH].
        destruct (OptParse.process_short_opts _ _ _) as [[v' p']| |] eqn:Ep;
          try done.
        apply process_short_opts_compression in Ep as [? ?]; [|done].
        by apply IH.
Qed.

(** X16.  Whatever the command line, [options.compression] is not true after
    [parse_args]. *)
Lemma compression_never_enabled argv values args :
  OptParse.parse_args parse_int argv = OptParse.Done (values, args) ->
  truthy (compression values) = false.
Proof.
  intros H. apply process_args_compression in H as [-> | ->]; try done.
  by left.
Qed.


(** ** The announcement of the agent *)

Lemma dict_of_pairs_None (pairs : list (string * string)) k :
  k ∉ (fst <$> pairs) -> dict_of_pairs pairs !! k = None.
Proof.
  unfold dict_of_pairs.
  assert (forall d : dict, d !! k = None -> k ∉ (fst <$> pairs) ->
    foldl (fun d kv => <[fst kv := snd kv]> d) d pairs !! k = None) as H.
  { induction pairs as [|[k' v] pairs IH]; intros d Hd Hk; [done|].
    csimpl in *. apply not_elem_of_cons in Hk as [Hne Hk].
    apply IH; [|done]. by rewrite lookup_insert_ne. }
  intros Hk. by apply H.
Qed.

(** X17.  When the agent announces no pair at all, [ssh_agent_start] raises
    the [ScpError] 'Cannot determine agent data'. *)
Lemma ssh_agent_start_no_pair st w output :
  popen (world st) [SSH_AGENT_PATH] (environ st) PIPE = (w, Exited 0 output) ->
  AgentOutput.findall output = [] ->
  snd (ssh_agent_start st) = Raise (ScpError (CannotDetermineAgentData output)).
Proof.
  intros Hp Hm. unfold ssh_agent_start, bind, run_command. rewrite Hp. simpl.
  by rewrite Hm.
Qed.

(** X18.  When the agent announces pairs but none for SSH_AUTH_SOCK,
    [ssh_agent_start] raises the [KeyError] of [agent['SSH_AUTH_SOCK']]
    instead. *)
Lemma ssh_agent_start_no_sock st w output :
  popen (world st) [SSH_AGENT_PATH] (environ st) PIPE = (w, Exited 0 output) ->
  AgentOutput.findall output <> [] ->
  "SSH_AUTH_SOCK" ∉ (fst <$> AgentOutput.findall output) ->
  snd (ssh_agent_start st) = Raise (KeyError "SSH_AUTH_SOCK").
Proof.
  intros Hp Hm Hsock.
  assert (dict_of_pairs
    ((fun kv => (fst kv, Py.strip_by (Py.eqc "'") (snd kv))) <$>
     AgentOutput.findall output) !! "SSH_AUTH_SOCK" = None) as Hd.
  { apply dict_of_pairs_None. by rewrite <- list_fmap_compose. }
  unfold ssh_agent_start, bind at 1, run_command. rewrite Hp. simpl.
  destruct (AgentOutput.findall output) as [|kv m]; [done|].
  unfold bind, lift, getitem. simpl in Hd |- *. by rewrite Hd.
Qed.


(** * More properties of the code *)

(** ** The store keeps one rule for each pattern *)

Lemma pattern_alter_option key value i (_config : list dict) :
  key <> "host" ->
  pattern <$> alter (insert key value) i _config = pattern <$> _config.
Proof.
  intros Hkey. revert i. induction _config as [|r rest IH]; intros i; [done|].
  destruct i as [|i]; csimpl.
  - unfold pattern at 1. by rewrite lookup_insert_ne.
  - by rewrite IH.
Qed.

Lemma pattern_set_option key value configs : forall _config : list dict,
  key <> "host" ->
  pattern <$> SSHConfig.set_option key value _config configs = pattern <$> _config.
Proof.
  unfold SSHConfig.set_option.
  induction configs as [|i configs IH]; intros cfg Hkey; [done|].
  simpl. rewrite IH by done. by apply pattern_alter_option.
Qed.

Lemma find_rule_None (_config : list dict) host :
  wf_config _config ->
  SSHConfig.find_rule _config host = OK None ->
  host ∉ (pattern <$> _config).
Proof.
  intros Hwf. unfold SSHConfig.find_rule. rewrite with_host_wf by done. simpl.
  destruct (list_find _ _) as [[i x]|] eqn:E; [done|]. intros _.
  apply list_find_None in E. rewrite Forall_forall in E.
  intros (r & -> & Hr)%list_elem_of_fmap.
  apply (E (tag r)); [|done]. apply list_elem_of_fmap. eauto.
Qed.

Lemma add_host_NoDup st host st' :
  wf_config (fst st) -> NoDup (pattern <$> fst st) ->
  SSHConfig.add_host st host = OK st' -> NoDup (pattern <$> fst st').
Proof.
  intros Hwf Hnd. destruct st as [cfg configs]. unfold SSHConfig.add_host.
  destruct (SSHConfig.find_rule cfg host) as [[i|]|e] eqn:E; simpl;
    intros [= <-]; [done|].
  simpl. rewrite fmap_app. apply NoDup_app. split_and!; [done| |].
  - intros p Hp. csimpl. unfold pattern at 1. rewrite lookup_singleton_eq. simpl.
    intros ->%list_elem_of_singleton. by eapply find_rule_None.
  - csimpl. apply NoDup_singleton.
Qed.

Lemma add_hosts_NoDup hosts : forall st st',
  Forall (fun h => h <> "") hosts ->
  wf_config (fst st) -> NoDup (pattern <$> fst st) ->
  foldM SSHConfig.add_host st hosts = OK st' -> NoDup (pattern <$> fst st').
Proof.
  induction hosts as [|h hosts IH]; simpl; intros st st' Hne Hwf Hnd H.
  - by injection H as <-.
  - apply Forall_cons in Hne as [Hh Hne].
    destruct (SSHConfig.add_host st h) as [st1|e] eqn:E; [|done].
    simpl in H. eapply IH; [done| | |done].
    + by eapply add_host_wf.
    + by eapply add_host_NoDup.
Qed.

Lemma parse_line_NoDup st line st' :
  wf_config (fst st) /\ NoDup (pattern <$> fst st) ->
  SSHConfig.parse_line st line = OK st' ->
  wf_config (fst st') /\ NoDup (pattern <$> fst st').
Proof.
  intros [Hwf Hnd] H. split; [by eapply parse_line_wf|].
  revert H. unfold SSHConfig.parse_line.
  set (l := Py.lstrip _).
  destruct (Py.is_empty l); [by intros [= <-]|].
  destruct (match l with String c _ => Py.eqc c "#" | _ => false end);
    [by intros [= <-]|].
  destruct (SSHConfig.split_line l) as [[key value]|e]; [|done]. simpl.
  destruct (String.eqb_spec key "host") as [->|Hkey].
  - intros H. eapply add_hosts_NoDup in H; [done| |done..].
    apply split_ws_nonempty.
  - intros [= <-]. simpl. by rewrite pattern_set_option.
Qed.

Lemma parse_NoDup_patterns file_obj _config :
  SSHConfig.parse SSHConfig.init file_obj = OK _config ->
  NoDup (pattern <$> _config).
Proof.
  unfold SSHConfig.parse.
  destruct (foldM _ _ _) as [st|e] eqn:E; [|done]. simpl. intros [= <-].
  eapply (foldM_invariant _
    (fun st => wf_config (fst st) /\ NoDup (pattern <$> fst st))), E.
  - intros s x s'. apply parse_line_NoDup.
  - split; [apply init_wf|]. apply NoDup_singleton.
Qed.

(** X1.  Every store that [parse] returns has pairwise distinct patterns: a
    pattern that is declared again is merged into the rule it has. *)
Theorem parse_patterns_distinct file_obj _config :
  SSHConfig.parse SSHConfig.init file_obj = OK _config ->
  NoDup (pattern <$> _config).
Proof.
  unfold SSHConfig.parse.
  destruct (foldM _ _ _) as [st|e] eqn:E; [|done]. simpl. intros [= <-].
  revert E.
  apply (foldM_invariant _
    (fun st => wf_config (fst st) /\ NoDup (pattern <$> fst st))).
  - intros s x s'. apply parse_line_NoDup.
  - split; [apply init_wf|]. apply NoDup_singleton.
Qed.


(** ** Option names are kept in lower case *)

Lemma lower_char_idemp c : Py.lower_char (Py.lower_char c) = Py.lower_char c.
Proof. by destruct c as [[] [] [] [] [] [] [] []]. Qed.

Lemma lower_idemp s : Py.lower (Py.lower s) = Py.lower s.
Proof.
  induction s as [|c s IH]; [done|].
  cbn [Py.lower]. by rewrite lower_char_idemp, IH.
Qed.

Lemma split_line_lower line key value :
  SSHConfig.split_line line = OK (key, value) -> Py.lower key = key.
Proof.
  unfold SSHConfig.split_line.
  destruct (Py.contains "=" line).
  - destruct (Py.split1 "=" line) as [a b]. intros [= <- _]. apply lower_idemp.
  - destruct (Py.break Py.isspace line) as [a b].
    destruct (Py.is_empty b); [done|]. intros [= <- _]. apply lower_idemp.
Qed.

Lemma parse_line_lower st line st' :
  Forall lower_keys (fst st) -> SSHConfig.parse_line st line = OK st' ->
  Forall lower_keys (fst st').
Proof.
  intros Hall. unfold SSHConfig.parse_line.
  set (l := Py.lstrip _).
  destruct (Py.is_empty l); [by intros [= <-]|].
  destruct (match l with String c _ => Py.eqc c "#" | _ => false end);
    [by intros [= <-]|].
  destruct (SSHConfig.split_line l) as [[key value]|e] eqn:E; [|done]. simpl.
  destruct (String.eqb key "host").
  - apply (foldM_invariant _ (fun st => Forall lower_keys (fst st))); [|done].
    intros [cfg configs] host s'. unfold SSHConfig.add_host.
    destruct (SSHConfig.find_rule cfg host) as [[i|]|e]; simpl;
      intros Hcfg [= <-]; [done|].
    apply Forall_app. split; [done|]. repeat constructor.
    intros k [v Hv]. apply lookup_singleton_Some in Hv as [<- _]. done.
  - intros [= <-]. simpl. unfold SSHConfig.set_option.
    apply split_line_lower in E. revert Hall. generalize (fst st).
    induction (snd st) as [|i configs IH]; intros cfg Hcfg; [done|].
    simpl. apply IH. apply Forall_alter; [done|].
    intros r _ Hr k [v Hv]. destruct (decide (key = k)) as [<-|Hne]; [done|].
    rewrite lookup_insert_ne in Hv by done. apply Hr. eauto.
Qed.

Lemma parse_lower file_obj _config :
  SSHConfig.parse SSHConfig.init file_obj = OK _config ->
  Forall lower_keys _config.
Proof.
  unfold SSHConfig.parse.
  destruct (foldM _ _ _) as [st|e] eqn:E; [|done]. simpl. intros [= <-].
  revert E. apply (foldM_invariant _ (fun st => Forall lower_keys (fst st))).
  - intros s x s'. apply parse_line_lower.
  - repeat constructor. intros k [v Hv].
    apply lookup_singleton_Some in Hv as [<- _]. done.
Qed.

(** X2.  The options that [lookup] resolves from a parsed file are named in
    lower case, however the file spells them. *)
Theorem lookup_keys_lower file_obj _config hostname ret :
  SSHConfig.parse SSHConfig.init file_obj = OK _config ->
  SSHConfig.lookup fnmatch _config hostname = OK ret ->
  lower_keys ret.
Proof.
  intros Hparse. pose proof (parse_lower _ _ Hparse) as Hlower.
  rewrite lookup_wf by (by eapply parse_wf). intros [= <-] k [v Hv].
  rewrite lookup_delete in Hv. case_decide; [done|].
  rewrite update_all_lookup in Hv.
  apply last_binding_elem in Hv as (m & Hm & Hk).
  apply list_elem_of_fmap in Hm as (x & -> & Hx).
  rewrite sort_by_len_Permutation in Hx.
  apply list_elem_of_fmap in Hx as (r & -> & Hr).
  apply list_elem_of_filter in Hr as [_ Hr].
  rewrite Forall_forall in Hlower. apply (Hlower r Hr). eauto.
Qed.


(** ** Lines that [parse] passes over, and lines it refuses *)

Lemma foldM_app {A S} (f : S -> A -> result S) (s : S) (xs ys : list A) :
  foldM f s (xs ++ ys) = rbind (foldM f s xs) (fun s' => foldM f s' ys).
Proof.
  revert s. induction xs as [|x xs IH]; intros s; simpl; [done|].
  destruct (f s x) as [s1|e]; simpl; [apply IH|done].
Qed.

Lemma parse_line_ignored st line :
  is_ignored line = true -> SSHConfig.parse_line st line = OK st.
Proof.
  unfold is_ignored, SSHConfig.parse_line.
  destruct (Py.lstrip _) as [|c l]; [done|]. simpl. by intros ->.
Qed.

(** X3.  A blank line or a comment can be taken out of the file, wherever it
    stands, without changing what [parse] returns or raises. *)
Theorem parse_skips_ignored_line self before line after :
  is_ignored line = true ->
  SSHConfig.parse self (before ++ line :: after) =
  SSHConfig.parse self (before ++ after).
Proof.
  intros Hline. unfold SSHConfig.parse. rewrite !foldM_app.
  destruct (foldM _ _ before) as [st|e]; simpl; [|done].
  by rewrite parse_line_ignored.
Qed.

Lemma break_all p s :
  (forall c, Py.contains c s = true -> p c = false) ->
  Py.break p s = (s, "").
Proof.
  induction s as [|d s IH]; intros Hs; simpl; [done|].
  rewrite (Hs d) by (simpl; unfold Py.eqc; by rewrite Ascii.eqb_refl).
  rewrite IH; [done|]. intros c Hc. apply Hs. simpl. rewrite Hc. apply orb_true_r.
Qed.

(** X4.  A line that is neither blank nor a comment and has no [=] and no
    white space after its first word makes [parse] raise the exception
    'Unparsable line' with the line as it is without its indentation and
    newline, whatever follows it, when the lines before it parse. *)
Theorem parse_unparsable_line self before line after _config c l :
  SSHConfig.parse self before = OK _config ->
  Py.lstrip (Py.rstrip_by (Py.eqc "010") line) = String c l ->
  c <> "#"%char ->
  Py.contains "=" (String c l) = false ->
  (forall d, Py.contains d (String c l) = true -> Py.isspace d = false) ->
  SSHConfig.parse self (before ++ line :: after) =
  Raise (UnparsableLine (String c l)).
Proof.
  intros Hbefore Hline Hc Heq Hspace. unfold SSHConfig.parse in *.
  rewrite foldM_app. destruct (foldM _ _ before) as [st|e]; [|done].
  cbn [rbind foldM]. unfold SSHConfig.parse_line at 1. rewrite Hline.
  cbn [Py.is_empty]. destruct (Ascii.eqb_spec c "#") as [|_]; [done|].
  unfold Py.eqc. destruct (Ascii.eqb_spec c "#") as [|_]; [done|].
  unfold SSHConfig.split_line. rewrite Heq, (break_all _ _ Hspace). done.
Qed.


(** ** What [lookup] resolves *)

Lemma sorted_matching_Permutation (_config : list dict) hostname :
  snd <$> SSHConfig.sort_by_len (tag <$> matching_rules _config hostname)
  ≡ₚ matching_rules _config hostname.
Proof. by rewrite sort_by_len_Permutation, snd_tag. Qed.

Lemma lookup_resolved (_config : list dict) hostname k :
  wf_config _config -> k <> "host" ->
  exists ret,
    SSHConfig.lookup fnmatch _config hostname = OK ret /\
    ret !! k =
      last_binding
        (snd <$> SSHConfig.sort_by_len (tag <$> matching_rules _config hostname)) k.
Proof.
  intros Hwf Hk. eexists. split; [by apply lookup_wf|].
  rewrite lookup_delete, decide_False by done. apply update_all_lookup.
Qed.

Lemma parse_NoDup file_obj (_config : list dict) :
  SSHConfig.parse SSHConfig.init file_obj = OK _config -> NoDup _config.
Proof. intros H. eapply NoDup_fmap_1, parse_NoDup_patterns, H. Qed.

(** X5.  A hostname that matches no pattern but [*] resolves to the options
    of the first rule, the one of [*]: those set before the first Host
    line or under [Host *]. *)
Theorem lookup_wildcard_only file_obj _config hostname :
  SSHConfig.parse SSHConfig.init file_obj = OK _config ->
  (forall r, r ∈ matching_rules _config hostname -> pattern r = "*") ->
  exists r0,
    head _config = Some r0 /\ pattern r0 = "*" /\
    SSHConfig.lookup fnmatch _config hostname = OK (delete "host" r0).
Proof.
  intros Hparse Honly. pose proof (parse_wf _ _ Hparse) as Hwf.
  pose proof (parse_NoDup_patterns _ _ Hparse) as Hnd.
  destruct Hwf as [Hall (r0 & Hhead & Hr0)] eqn:Ewf. clear Ewf.
  destruct _config as [|r rest]; [done|]. injection Hhead as ->.
  assert (pattern r0 = "*") as Hp0 by (unfold pattern; by rewrite Hr0).
  exists r0. split; [done|]. split; [done|].
  assert (matching_rules (r0 :: rest) hostname = [r0]) as HM.
  { unfold matching_rules in *. rewrite filter_cons in *.
    rewrite Hp0, fnmatch_star in *. rewrite decide_True in * by done.
    f_equal. csimpl in Hnd. apply NoDup_cons in Hnd as [Hnotin _].
    set (F := filter (fun r => fnmatch hostname (pattern r) = true) rest) in *.
    assert (forall r', r' ∈ F -> False) as Hnone.
    { intros r' Hin. destruct Hnotin.
      rewrite Hp0, <- (Honly r') by by right.
      apply list_elem_of_fmap. exists r'. split; [done|].
      by apply list_elem_of_filter in Hin as [_ ?]. }
    destruct F as [|r' l]; [done|]. destruct (Hnone r'). left. }
  rewrite lookup_wf by (split; eauto). rewrite HM. csimpl.
  unfold SSHConfig.update_all. simpl. by rewrite (right_id_L ∅ (∪)).
Qed.

Lemma StronglySorted_lookup {A} (R : relation A) (l : list A) i j x y :
  StronglySorted R l -> (i < j)%nat ->
  l !! i = Some x -> l !! j = Some y -> R x y.
Proof.
  intros Hl. revert i j. induction Hl as [|a l Hl IH Ha]; intros i j Hij Hi Hj;
    [done|].
  destruct j as [|j]; [lia|]. simpl in Hj. destruct i as [|i].
  - injection Hi as <-. rewrite Forall_forall in Ha. apply Ha.
    by eapply list_elem_of_lookup_2.
  - simpl in Hi. apply (IH i j); [lia|done..].
Qed.

(** X6.  Among the rules that match a hostname, the one with the longest
    pattern decides: the value a matching rule gives a key is the value
    [lookup] returns when every other matching rule with that key has a
    strictly shorter pattern. *)
Theorem lookup_longest_pattern_wins file_obj _config hostname r k v :
  SSHConfig.parse SSHConfig.init file_obj = OK _config ->
  r ∈ matching_rules _config hostname ->
  r !! k = Some v -> k <> "host" ->
  (forall r', r' ∈ matching_rules _config hostname -> r' <> r ->
     is_Some (r' !! k) ->
     (Py.len (pattern r') < Py.len (pattern r))%nat) ->
  exists ret,
    SSHConfig.lookup fnmatch _config hostname = OK ret /\ ret !! k = Some v.
Proof.
  intros Hparse Hr Hrk Hk Hshorter.
  pose proof (parse_wf _ _ Hparse) as Hwf.
  destruct (lookup_resolved _config hostname k Hwf Hk) as (ret & Hret & Hlook).
  exists ret. split; [done|]. rewrite Hlook.
  set (ms := snd <$> SSHConfig.sort_by_len (tag <$> matching_rules _config hostname)).
  pose proof (sorted_matching_Permutation _config hostname) as Hperm.
  fold ms in Hperm.
  assert (NoDup ms) as Hnd.
  { rewrite Hperm. apply NoDup_filter. by eapply parse_NoDup. }
  assert (StronglySorted
    (fun a b => (Py.len (pattern a) <= Py.len (pattern b))%nat) ms) as Hsorted.
  { apply Sorted_StronglySorted.
    - intros a b c. lia.
    - apply sorted_matching_ascending_stable. }
  assert (r ∈ ms) as Hin by by rewrite Hperm.
  apply list_elem_of_lookup in Hin as [i Hi].
  apply last_binding_Some. exists i, r. split_and!; [done..|].
  intros j m' Hij Hj. destruct (m' !! k) as [w|] eqn:Ew; [|done].
  destruct (decide (m' = r)) as [->|Hne].
  - pose proof (NoDup_lookup _ _ _ _ Hnd Hi Hj). lia.
  - assert (m' ∈ matching_rules _config hostname) as Hm'.
    { rewrite <- Hperm. by eapply list_elem_of_lookup_2. }
    pose proof (Hshorter m' Hm' Hne (ltac:(eauto))) as Hlt.
    pose proof (StronglySorted_lookup _ _ _ _ _ _ Hsorted Hij Hi Hj). simpl in *.
    lia.
Qed.


(** ** The agent that [ssh_agent_start] returns *)

Lemma match_here_name s k v n :
  AgentOutput.match_here s = Some (k, v, n) -> k ∈ agent_names.
Proof.
  unfold AgentOutput.match_here, agent_names.
  destruct (AgentOutput.match_name "SSH_AUTH_SOCK" s) as [[v1 n1]|].
  { intros [= <- _ _]. rewrite !elem_of_cons. auto. }
  destruct (AgentOutput.match_name "SSH_AGENT_PID" s) as [[v1 n1]|].
  { intros [= <- _ _]. rewrite !elem_of_cons. auto. }
  destruct (AgentOutput.match_name "SSH_PAGEANT_PID" s) as [[v1 n1]|]; [|done].
  intros [= <- _ _]. rewrite !elem_of_cons. auto.
Qed.

Lemma findall_go_names s : forall skip,
  Forall (fun kv => fst kv ∈ agent_names) (AgentOutput.findall_go skip s).
Proof.
  induction s as [|c s IH]; intros skip; simpl; [constructor|].
  destruct skip as [|n]; [|apply IH].
  destruct (AgentOutput.match_here (String c s)) as [[[k v] n]|] eqn:E;
    [|apply IH].
  constructor; [|apply IH]. simpl. by eapply match_here_name.
Qed.

Lemma dict_of_pairs_Some (pairs : list (string * string)) k v :
  dict_of_pairs pairs !! k = Some v -> k ∈ (fst <$> pairs).
Proof.
  intros H. destruct (decide (k ∈ (fst <$> pairs))) as [|Hk]; [done|].
  by rewrite dict_of_pairs_None in H.
Qed.

Lemma ssh_agent_start_names st st' agent :
  ssh_agent_start st = (st', OK agent) ->
  forall k, is_Some (agent !! k) -> k ∈ agent_names.
Proof.
  unfold ssh_agent_start, bind at 1.
  destruct (run_command [SSH_AGENT_PATH] PIPE os_environ st) as [st1 [output|e]];
    [|done].
  pose proof (findall_go_names output 0) as Hnames.
  fold (AgentOutput.findall output) in Hnames.
  destruct (AgentOutput.findall output) as [|kv m] eqn:E; [done|].
  unfold bind, lift, getitem.
  set (agent0 := dict_of_pairs _).
  destruct (agent0 !! "SSH_AUTH_SOCK") as [sock|]; [|done].
  intros [= <- <-] k [v Hv]. apply dict_of_pairs_Some in Hv.
  rewrite <- list_fmap_compose in Hv.
  apply list_elem_of_fmap in Hv as (kv' & -> & Hin).
  rewrite Forall_forall in Hnames. simpl. by apply Hnames.
Qed.

(** X7.  When [ssh_agent_start] returns an agent, the agent has a variable
    SSH_AUTH_SOCK and no variable besides SSH_AUTH_SOCK, SSH_AGENT_PID
    and SSH_PAGEANT_PID; one process has been spawned, with the
    environment of the run, which is not changed. *)
Theorem ssh_agent_start_returns_socket st st' agent :
  ssh_agent_start st = (st', OK agent) ->
  is_Some (agent !! "SSH_AUTH_SOCK") /\
  (forall k, is_Some (agent !! k) -> k ∈ agent_names) /\
  environ st' = environ st /\
  trace st' = trace st ++ [Popen [SSH_AGENT_PATH] (environ st) PIPE].
Proof.
  intros Hstart. pose proof (ssh_agent_start_names _ _ _ Hstart) as Hnames.
  revert Hstart. unfold ssh_agent_start, bind at 1.
  destruct (run_command_eq [SSH_AGENT_PATH] PIPE os_environ st) as (w & r & ->).
  destruct r as [output|e]; [|done].
  destruct (AgentOutput.findall output) as [|kv m] eqn:E; [done|].
  unfold bind, lift, getitem.
  set (agent0 := dict_of_pairs _).
  destruct (agent0 !! "SSH_AUTH_SOCK") as [sock|] eqn:Hsock; [|done].
  intros [= <- <-]. split; [eauto|]. by split.
Qed.


(** ** What a run does to the environment *)

#[local] Instance same_environ_preorder : PreOrder same_environ.
Proof.
  split; [done|]. intros st1 st2 st3. unfold same_environ. congruence.
Qed.

#[local] Instance environ_frame_preorder names : PreOrder (environ_frame names).
Proof.
  split; [done|]. intros st1 st2 st3 H1 H2 k Hk.
  by rewrite (H2 k Hk), (H1 k Hk).
Qed.

#[local] Instance environ_kept_preorder agent : PreOrder (environ_kept agent).
Proof.
  split; [done|]. intros st1 st2 st3 H1 H2 Hsub. unfold environ_kept in *.
  rewrite H2; [by apply H1|]. by rewrite H1.
Qed.

Lemma quiet_same_environ st st' : quiet st st' -> same_environ st st'.
Proof. by intros [? _]. Qed.

Lemma run_command_same_environ command io env :
  preserves same_environ (run_command command io env).
Proof.
  intros st. by destruct (run_command_eq command io env st) as (w & r & ->).
Qed.

Lemma agent_step_frame agent names command io :
  (forall k, is_Some (agent !! k) -> k ∈ names) ->
  preserves (environ_frame names)
    (bind (get_ssh_agent_env agent)
       (fun env => bind (run_command command io env) (fun _ => ret tt))).
Proof.
  intros Hagent st.
  destruct (run_in_agent_env agent command io st) as (w & r & ->). simpl.
  intros k Hk. apply lookup_union_r.
  destruct (agent !! k) as [v|] eqn:E; [|done]. destruct Hk. apply Hagent. eauto.
Qed.

Lemma agent_step_kept agent command io :
  preserves (environ_kept agent)
    (bind (get_ssh_agent_env agent)
       (fun env => bind (run_command command io env) (fun _ => ret tt))).
Proof.
  intros st Hsub.
  destruct (run_in_agent_env agent command io st) as (w & r & ->). simpl.
  by apply map_subseteq_union.
Qed.

(** The guarded transfer keeps every relation that each of its three
    steps keeps. *)
Lemma transfer_with_agent_preserves (R : state -> state -> Prop) `{!PreOrder R}
    agent agent_started host1 host2 options :
  (forall command io,
     preserves R
       (bind (get_ssh_agent_env agent)
          (fun env => bind (run_command command io env) (fun _ => ret tt)))) ->
  preserves R (transfer_with_agent agent agent_started host1 host2 options).
Proof.
  intros Hstep. unfold transfer_with_agent.
  apply preserves_try_finally; [done| |].
  - apply preserves_bind; [done| |].
    + unfold ssh_agent_load_keys.
      destruct (identity_files host1 host2); [by apply preserves_ret|apply Hstep].
    + intros _. unfold scp. apply preserves_bind; [done|by apply preserves_lift|].
      intros command. apply Hstep.
  - destruct agent_started; [apply Hstep|by apply preserves_ret].
Qed.

Lemma ssh_agent_start_same_environ : preserves same_environ ssh_agent_start.
Proof.
  unfold ssh_agent_start.
  apply preserves_bind; [apply _|apply run_command_same_environ|].
  intros output. destruct (AgentOutput.findall output); [apply preserves_raise, _|].
  apply preserves_bind; [apply _|apply preserves_lift, _|].
  intros _. apply preserves_ret, _.
Qed.

Lemma acquire_agent_environ st st' r :
  acquire_agent st = (st', r) ->
  environ st' = environ st /\
  forall agent owned, r = OK (agent, owned) ->
    (forall k, is_Some (agent !! k) -> k ∈ agent_names) /\
    (is_Some (environ st !! "SSH_AUTH_SOCK") -> agent ⊆ environ st).
Proof.
  destruct (environ st !! "SSH_AUTH_SOCK") as [sock|] eqn:E.
  - rewrite (acquire_agent_inherited _ _ E). intros [= <- <-].
    split; [done|]. intros agent owned [= <- <-]. split.
    + intros k [v Hv]. apply lookup_singleton_Some in Hv as [<- _].
      unfold agent_names. rewrite !elem_of_cons. auto.
    + intros _. by apply map_singleton_subseteq_l.
  - rewrite (acquire_agent_started _ E).
    destruct (ssh_agent_start st) as [st1 [a|e]] eqn:Hs.
    + intros [= <- <-].
      pose proof (ssh_agent_start_names _ _ _ Hs) as Hk.
      pose proof (ssh_agent_start_same_environ st) as He. rewrite Hs in He.
      split; [done|]. intros agent owned [= <- <-]. split; [done|].
      by intros [? ?].
    + intros [= <- <-]. split; [|done].
      pose proof (ssh_agent_start_same_environ st) as H. by rewrite Hs in H.
Qed.


Lemma same_environ_frame names st st' :
  same_environ st st' -> environ_frame names st st'.
Proof. intros H k _. by rewrite H. Qed.

Lemma except_rel {A} (R : state -> state -> Prop) `{!PreOrder R}
    (body : M A) handler st :
  (forall v, preserves R (handler v)) ->
  R st (fst (body st)) ->
  R st (fst (try_except_ScpError body handler st)).
Proof.
  intros Hh Hb. unfold try_except_ScpError.
  destruct (body st) as [st1 [a|[v| | |]]]; simpl in *; try done.
  etrans; [exact Hb|]. apply Hh.
Qed.

Lemma bind_eq {A B} (m : M A) (k : A -> M B) st :
  bind m k st =
  match m st with
  | (st', OK a) => k a st'
  | (st', Raise e) => (st', Raise e)
  end.
Proof. reflexivity. Qed.

Lemma main_transfer_unfold host1 host2 options st :
  main_transfer host1 host2 options st =
  match read_ssh_config st with
  | (st1, OK sshconfig) =>
      try_except_ScpError
        (bind (resolve_hosts sshconfig host1 host2)
           (fun hosts =>
              bind acquire_agent
                (fun session =>
                   transfer_with_agent (fst session) (snd session)
                     (fst hosts) (snd hosts) options)))
        (fun value =>
           bind (emit (PrintError value)) (fun _ => raise (SystemExit 2)))
        st1
  | (st1, Raise e) => (st1, Raise e)
  end.
Proof.
  unfold main_transfer, try_except_ScpError, bind.
  destruct (read_ssh_config st) as [st1 [cfg|e]]; [|done].
  destruct (resolve_hosts cfg host1 host2 st1) as [st2 [[h1 h2]|e]]; [|done].
  by destruct (acquire_agent st2) as [st3 [[agent owned]|e]].
Qed.

(** X8.  A run changes no variable of the environment besides SSH_AUTH_SOCK,
    SSH_AGENT_PID and SSH_PAGEANT_PID, and a run that inherits
    SSH_AUTH_SOCK leaves the whole environment as it was. *)
Theorem main_transfer_environ host1 host2 options st :
  environ_frame agent_names st (fst (main_transfer host1 host2 options st)) /\
  (is_Some (environ st !! "SSH_AUTH_SOCK") ->
   environ (fst (main_transfer host1 host2 options st)) = environ st).
Proof.
  rewrite main_transfer_unfold.
  pose proof (quiet_same_environ _ _ (read_ssh_config_quiet st)) as Hq1.
  destruct (read_ssh_config st) as [st1 [cfg|e]]; simpl in Hq1.
  2: { split; [by apply same_environ_frame|intros _; exact Hq1]. }
  match goal with
  | |- context [try_except_ScpError ?b ?h] => set (B := b); set (H := h)
  end.
  assert (forall v, preserves same_environ (H v)) as Hh.
  { intros v st0. apply quiet_same_environ, handler_quiet. }
  assert (environ_frame agent_names st1 (fst (B st1)) /\
          (is_Some (environ st1 !! "SSH_AUTH_SOCK") ->
           same_environ st1 (fst (B st1)))) as [Hframe Hsame].
  { unfold B. rewrite (bind_eq (resolve_hosts cfg host1 host2)).
    pose proof (quiet_same_environ _ _
      (resolve_hosts_quiet cfg host1 host2 st1)) as Hq2.
    destruct (resolve_hosts cfg host1 host2 st1) as [st2 [[h1 h2]|e]];
      simpl in Hq2.
    2: { split; [by apply same_environ_frame|intros _; exact Hq2]. }
    rewrite (bind_eq acquire_agent).
    destruct (acquire_agent st2) as [st3 r3] eqn:E3.
    apply acquire_agent_environ in E3 as [He3 Hagent].
    destruct r3 as [[agent owned]|e]; simpl.
    2: { split; [apply same_environ_frame|intros _];
           unfold same_environ in *; congruence. }
    destruct (Hagent agent owned eq_refl) as [Hnames Hsub]. split.
    - etrans; [apply same_environ_frame, Hq2|].
      etrans; [apply same_environ_frame, He3|].
      apply transfer_with_agent_preserves; [apply _|].
      intros command io. by apply agent_step_frame.
    - intros Hsock. rewrite <- Hq2 in Hsock. specialize (Hsub Hsock).
      etrans; [exact Hq2|]. etrans; [exact He3|].
      pose proof (transfer_with_agent_preserves (environ_kept agent)
        agent owned h1 h2 options (agent_step_kept agent) st3) as Hkept.
      apply Hkept. by rewrite He3. }
  split.
  - etrans; [apply same_environ_frame, Hq1|].
    apply except_rel; [apply _| |done].
    intros v st0. apply same_environ_frame, Hh.
  - intros Hsock. rewrite <- Hq1 in Hsock.
    change (same_environ st (fst (try_except_ScpError B H st1))).
    etrans; [exact Hq1|]. apply except_rel; [apply _|done|by apply Hsame].
Qed.


(** ** The guarded transfer when a step fails *)

Lemma run_command_raises command io env st e :
  snd (run_command command io env st) = Raise e -> exists v, e = ScpError v.
Proof.
  unfold run_command. destruct (popen _ _ _ _) as [w [|ret output]]; simpl.
  - intros [= <-]. eauto.
  - destruct (ret =? 0); simpl; [done|]. intros [= <-]. eauto.
Qed.

Lemma agent_step_result agent command io st :
  exists w r,
    bind (get_ssh_agent_env agent)
         (fun env => bind (run_command command io env) (fun _ => ret tt)) st =
    (log (Popen command (agent ∪ environ st) io)
         (with_world w (with_environ (agent ∪ environ st) st)), r) /\
    (r = OK tt \/ exists v, r = Raise (ScpError v)).
Proof.
  unfold bind at 1, get_ssh_agent_env. unfold bind.
  pose proof (run_command_raises command io os_environ
                (with_environ (agent ∪ environ st) st)) as Hr.
  destruct (run_command_eq command io os_environ
              (with_environ (agent ∪ environ st) st)) as (w & r & Heq).
  rewrite Heq in *. destruct r as [output|e]; eexists _, _; (split; [done|]).
  - by left.
  - right. destruct (Hr e eq_refl) as [v ->]. eauto.
Qed.

Lemma ssh_agent_load_keys_fails agent f files st w p :
  popen (world st) (SSH_ADD_PATH :: f :: files) (agent ∪ environ st) sys_stdio
    = (w, p) ->
  (forall output, p <> Exited 0 output) ->
  exists v,
    ssh_agent_load_keys agent (f :: files) st =
    (log (Popen (SSH_ADD_PATH :: f :: files) (agent ∪ environ st) sys_stdio)
         (with_world w (with_environ (agent ∪ environ st) st)),
     Raise (ScpError v)).
Proof.
  intros Hp Hfail. unfold ssh_agent_load_keys, bind, get_ssh_agent_env, run_command.
  simpl. rewrite Hp. destruct p as [|ret output]; [by eexists|].
  destruct (Z.eqb_spec ret 0) as [->|Hne]; [by destruct (Hfail output)|].
  by eexists.
Qed.

(** X9.  When the identity files cannot be loaded ([ssh-add] cannot be started
    or exits with a status that is not zero) the transfer is not run: the
    guarded transfer spawns [ssh-add], then stops the agent if the run
    started it, and raises an [ScpError]. *)
Theorem key_loading_failure_skips_transfer agent (agent_started : bool)
    host1 host2 options st f files w p :
  identity_files host1 host2 = f :: files ->
  popen (world st) (SSH_ADD_PATH :: f :: files) (agent ∪ environ st) sys_stdio
    = (w, p) ->
  (forall output, p <> Exited 0 output) ->
  trace (fst (transfer_with_agent agent agent_started host1 host2 options st)) =
    trace st ++
    Popen (SSH_ADD_PATH :: f :: files) (agent ∪ environ st) sys_stdio ::
    (if agent_started
     then [Popen [SSH_AGENT_PATH; "-k"] (agent ∪ environ st) PIPE] else []) /\
  exists v,
    snd (transfer_with_agent agent agent_started host1 host2 options st) =
    Raise (ScpError v).
Proof.
  intros Hfiles Hp Hfail. unfold transfer_with_agent, try_finally.
  rewrite bind_eq, Hfiles.
  destruct (ssh_agent_load_keys_fails agent f files st w p Hp Hfail) as [v ->].
  destruct agent_started.
  - unfold ssh_agent_stop.
    destruct (agent_step_result agent [SSH_AGENT_PATH; "-k"] PIPE
      (log (Popen (SSH_ADD_PATH :: f :: files) (agent ∪ environ st) sys_stdio)
         (with_world w (with_environ (agent ∪ environ st) st))))
      as (w' & r & -> & Hr).
    simpl. rewrite (assoc_L (∪)), (idemp_L (∪)).
    destruct Hr as [->|[v' ->]]; simpl; (split; [by rewrite <- app_assoc|eauto]).
  - simpl. eauto.
Qed.


#[local] Instance no_ssh_preorder : PreOrder no_ssh.
Proof.
  split.
  - intros st. exists []. by rewrite app_nil_r.
  - intros st1 st2 st3 (evs & Ht & Hs) (evs' & Ht' & Hs').
    exists (evs ++ evs'). split.
    + by rewrite Ht', Ht, app_assoc.
    + by apply Forall_app.
Qed.

Lemma agent_step_no_ssh agent command io st :
  (forall e, is_ssh (Popen command e io) = false) ->
  exists st' r,
    bind (get_ssh_agent_env agent)
         (fun env => bind (run_command command io env) (fun _ => ret tt)) st =
    (st', r) /\ no_ssh st st' /\
    (r = OK tt \/ exists v, r = Raise (ScpError v)).
Proof.
  intros Hc. destruct (agent_step_result agent command io st) as (w & r & -> & Hr).
  eexists _, _. split; [done|]. split; [|done].
  eexists [_]. split; [done|]. constructor; [apply Hc|constructor].
Qed.

Lemma command_without_hostname host1 host2 options :
  config (if truthy (push options) then host2 else host1) !! "hostname" = None ->
  Scp.command host1 host2 options = Raise (KeyError "hostname").
Proof.
  intros H. unfold Scp.command, Scp.endpoints, getitem.
  destruct (truthy (push options)); by rewrite H.
Qed.

(** X10.  When the resolved options of the remote host have no 'hostname', the
    guarded transfer never spawns the outer [ssh] and does not return: it
    raises the [KeyError] of the missing key, which [main_transfer] does
    not catch, or the [ScpError] of a failed [ssh-add] or agent stop. *)
Theorem missing_hostname_raises_KeyError agent (agent_started : bool)
    host1 host2 options st :
  config (if truthy (push options) then host2 else host1) !! "hostname" = None ->
  no_ssh st (fst (transfer_with_agent agent agent_started host1 host2 options st)) /\
  (snd (transfer_with_agent agent agent_started host1 host2 options st)
     = Raise (KeyError "hostname") \/
   exists v,
     snd (transfer_with_agent agent agent_started host1 host2 options st)
       = Raise (ScpError v)).
Proof.
  intros Hh. apply command_without_hostname in Hh.
  unfold transfer_with_agent, try_finally. rewrite bind_eq.
  assert (exists st1 r1,
    ssh_agent_load_keys agent (identity_files host1 host2) st = (st1, r1) /\
    no_ssh st st1 /\ (r1 = OK tt \/ exists v, r1 = Raise (ScpError v)))
    as (st1 & r1 & -> & Hs1 & Hr1).
  { unfold ssh_agent_load_keys. destruct (identity_files host1 host2) as [|f files].
    - exists st, (OK tt). split; [done|]. split; [reflexivity|by left].
    - by apply agent_step_no_ssh. }
  assert (exists e,
    match r1 with
    | OK a => scp agent host1 host2 options st1
    | Raise e => (st1, Raise e)
    end = (st1, Raise e) /\
    (e = KeyError "hostname" \/ exists v, e = ScpError v)) as (e & -> & He).
  { destruct Hr1 as [->|[v ->]].
    - rewrite (scp_raises _ _ _ _ _ _ Hh). eauto.
    - eauto. }
  destruct agent_started.
  - unfold ssh_agent_stop.
    destruct (agent_step_no_ssh agent [SSH_AGENT_PATH; "-k"] PIPE st1)
      as (st2 & r2 & -> & Hs2 & Hr2); [done|].
    destruct Hr2 as [->|[v ->]]; simpl.
    + split; [by etrans|]. destruct He as [->|[v ->]]; eauto.
    + split; [by etrans|]. eauto.
  - simpl. split; [done|]. destruct He as [->|[v ->]]; eauto.
Qed.


(** ** What a run raises *)

Lemma forM_raises {A B} (P : exn -> Prop) (f : A -> result B) xs e :
  (forall x e, f x = Raise e -> P e) -> forM f xs = Raise e -> P e.
Proof.
  intros Hf. induction xs as [|x xs IH]; simpl; [done|].
  destruct (f x) as [y|e'] eqn:E; simpl; [|intros [= <-]; eauto].
  destruct (forM f xs) as [ys|e']; simpl; [done|]. intros [= <-]. by apply IH.
Qed.

Lemma foldM_raises {A S} (P : exn -> Prop) (f : S -> A -> result S) xs : forall s e,
  (forall s x e, f s x = Raise e -> P e) -> foldM f s xs = Raise e -> P e.
Proof.
  induction xs as [|x xs IH]; intros s e Hf; simpl; [done|].
  destruct (f s x) as [s'|e'] eqn:E; simpl; [by apply IH|].
  intros [= <-]. eauto.
Qed.

Lemma with_host_raises x e :
  SSHConfig.with_host x = Raise e -> e = KeyError "host".
Proof.
  unfold SSHConfig.with_host, getitem. destruct (x !! "host"); simpl; [done|].
  by intros [= <-].
Qed.

Lemma lookup_raises (_config : list dict) hostname e :
  SSHConfig.lookup fnmatch _config hostname = Raise e -> e = KeyError "host".
Proof.
  unfold SSHConfig.lookup.
  destruct (forM SSHConfig.with_host _config) as [hs|e'] eqn:E; simpl.
  - unfold SSHConfig.delitem. destruct (_ !! "host"); [done|]. by intros [= <-].
  - intros [= <-]. revert E.
    apply (forM_raises (fun e => e = KeyError "host")), with_host_raises.
Qed.

Lemma parse_raises self file_obj e :
  SSHConfig.parse self file_obj = Raise e ->
  (exists line, e = UnparsableLine line) \/ e = KeyError "host".
Proof.
  unfold SSHConfig.parse.
  destruct (foldM _ _ _) as [st|e'] eqn:E; simpl; [done|]. intros [= <-].
  revert E.
  apply (foldM_raises
    (fun e => (exists line, e = UnparsableLine line) \/ e = KeyError "host")).
  clear. intros st line e.
  unfold SSHConfig.parse_line. set (l := Py.lstrip _).
  destruct (Py.is_empty l); [done|].
  destruct (match l with String c _ => Py.eqc c "#" | _ => false end); [done|].
  destruct (SSHConfig.split_line l) as [[key value]|e'] eqn:E; simpl.
  - destruct (String.eqb key "host"); [|done].
    apply (foldM_raises
      (fun e => (exists line, e = UnparsableLine line) \/ e = KeyError "host")).
    clear. intros [cfg configs] host e.
    unfold SSHConfig.add_host, SSHConfig.find_rule.
    destruct (forM SSHConfig.with_host cfg) as [hs|e'] eqn:E; simpl.
    + by destruct (list_find _ hs) as [[i x]|].
    + intros [= <-]. right. revert E.
      apply (forM_raises (fun e => e = KeyError "host")), with_host_raises.
  - intros [= <-]. left. unfold SSHConfig.split_line in E.
    destruct (Py.contains "=" l).
    + by destruct (Py.split1 "=" l).
    + destruct (Py.break Py.isspace l) as [a b].
      destruct (Py.is_empty b); [|done]. injection E as <-. eauto.
Qed.

Lemma raises_only_ret {A} P (a : A) : raises_only P (ret a).
Proof. by intros st e. Qed.

Lemma raises_only_raise {A} (P : exn -> Prop) e :
  P e -> raises_only P (raise (A:=A) e).
Proof. intros He st e'. simpl. by intros [= <-]. Qed.

Lemma raises_only_lift {A} (P : exn -> Prop) (r : result A) :
  (forall e, r = Raise e -> P e) -> raises_only P (lift r).
Proof. intros Hr st e. simpl. apply Hr. Qed.

Lemma raises_only_bind {A B} P (m : M A) (k : A -> M B) :
  raises_only P m -> (forall a, raises_only P (k a)) -> raises_only P (bind m k).
Proof.
  intros Hm Hk st e. rewrite bind_eq. specialize (Hm st).
  destruct (m st) as [st' [a|e']]; simpl in *; [apply Hk|].
  intros [= <-]. by apply Hm.
Qed.

Lemma raises_only_try_finally {A} P (body : M A) final :
  raises_only P body -> raises_only P final ->
  raises_only P (try_finally body final).
Proof.
  intros Hb Hf st e. unfold try_finally. specialize (Hb st).
  destruct (body st) as [st1 r]. specialize (Hf st1).
  destruct (final st1) as [st2 [[]|e']]; simpl in *; [apply Hb|].
  intros [= <-]. by apply Hf.
Qed.

Lemma agent_step_raises agent command io :
  raises_only scp_or_key_error
    (bind (get_ssh_agent_env agent)
       (fun env => bind (run_command command io env) (fun _ => ret tt))).
Proof.
  intros st e. destruct (agent_step_result agent command io st) as (w & r & -> & Hr).
  simpl. intros ->. destruct Hr as [|[v [= ->]]]; [done|]. left. eauto.
Qed.

Lemma key_error_is k : scp_or_key_error (KeyError k).
Proof. right. eauto. Qed.

Lemma scp_error_is v : scp_or_key_error (ScpError v).
Proof. left. eauto. Qed.

Lemma transfer_with_agent_raises agent agent_started host1 host2 options :
  raises_only scp_or_key_error
    (transfer_with_agent agent agent_started host1 host2 options).
Proof.
  unfold transfer_with_agent. apply raises_only_try_finally.
  - apply raises_only_bind.
    + unfold ssh_agent_load_keys.
      destruct (identity_files host1 host2);
        [apply raises_only_ret|apply agent_step_raises].
    + intros _. unfold scp. apply raises_only_bind.
      * apply raises_only_lift. intros e. unfold Scp.command, Scp.endpoints, getitem.
        destruct (truthy (push options)).
        -- destruct (config host2 !! "hostname"); simpl; [done|].
           intros [= <-]. apply key_error_is.
        -- destruct (config host1 !! "hostname"); simpl; [done|].
           intros [= <-]. apply key_error_is.
      * intros command. apply agent_step_raises.
  - destruct agent_started; [apply agent_step_raises|apply raises_only_ret].
Qed.

Lemma ssh_agent_start_raises : raises_only scp_or_key_error ssh_agent_start.
Proof.
  unfold ssh_agent_start. apply raises_only_bind.
  - intros st e He. apply run_command_raises in He as [v ->]. apply scp_error_is.
  - intros output. destruct (AgentOutput.findall output).
    + apply raises_only_raise, scp_error_is.
    + apply raises_only_bind; [|intros _; apply raises_only_ret].
      apply raises_only_lift. intros e. unfold getitem.
      destruct (_ !! _); [done|]. intros [= <-]. apply key_error_is.
Qed.

Lemma acquire_agent_raises : raises_only scp_or_key_error acquire_agent.
Proof.
  unfold acquire_agent. apply raises_only_bind.
  - intros st e. unfold get_ssh_agent. by destruct (environ st !! _).
  - intros [a|].
    + case_decide; [|apply raises_only_ret].
      apply raises_only_bind; [apply ssh_agent_start_raises|].
      intros agent. apply raises_only_ret.
    + apply raises_only_bind; [apply ssh_agent_start_raises|].
      intros agent. apply raises_only_ret.
Qed.

Lemma check_known_raises sshconfig host :
  raises_only scp_or_key_error (check_known sshconfig host).
Proof.
  unfold check_known. case_decide; [|apply raises_only_ret].
  apply raises_only_bind.
  - unfold list_known_hosts. apply raises_only_bind.
    + apply raises_only_lift. intros e He.
      apply (forM_raises (fun e => e = KeyError "host")) in He as ->;
        [apply key_error_is|apply with_host_raises].
    + intros hs. destruct (filter _ _); [apply raises_only_ret|].
      by intros st e.
  - intros _. apply raises_only_raise, scp_error_is.
Qed.

Lemma resolve_hosts_raises sshconfig host1 host2 :
  raises_only scp_or_key_error (resolve_hosts sshconfig host1 host2).
Proof.
  unfold resolve_hosts.
  apply raises_only_bind.
  { apply raises_only_lift. intros e ->%lookup_raises. apply key_error_is. }
  intros config1. apply raises_only_bind.
  { apply raises_only_lift. intros e ->%lookup_raises. apply key_error_is. }
  intros config2.
  apply raises_only_bind; [apply check_known_raises|]. intros _.
  apply raises_only_bind; [apply check_known_raises|]. intros _.
  apply raises_only_ret.
Qed.

(** X11.  No [ScpError] leaves [main_transfer]: each is printed and turned into
    [sys.exit(2)].  When the run exits, the status is 2 and the print of
    the error is the last thing it has done. *)
Theorem main_transfer_reports_ScpError host1 host2 options st :
  match snd (main_transfer host1 host2 options st) with
  | OK _ => True
  | Raise (ScpError _) => False
  | Raise (SystemExit code) =>
      code = 2 /\
      exists t value,
        trace (fst (main_transfer host1 host2 options st)) =
        t ++ [PrintError value]
  | Raise (KeyError _) => True
  | Raise (UnparsableLine _) => True
  end.
Proof.
  rewrite main_transfer_unfold.
  destruct (read_ssh_config st) as [st1 [cfg|e]] eqn:E1.
  - unfold try_except_ScpError.
    match goal with
    | |- context [bind (resolve_hosts cfg host1 host2) ?k] =>
        pose proof (raises_only_bind scp_or_key_error
          (resolve_hosts cfg host1 host2) k
          (resolve_hosts_raises cfg host1 host2)) as Hbody;
        set (B := bind (resolve_hosts cfg host1 host2) k) in *
    end.
    assert (raises_only scp_or_key_error B) as HB.
    { apply Hbody. intros hosts. apply raises_only_bind; [apply acquire_agent_raises|].
      intros session. apply transfer_with_agent_raises. }
    specialize (HB st1). destruct (B st1) as [st2 [[]|e]]; simpl in *; [done|].
    destruct (HB e eq_refl) as [[v ->]|[k ->]]; simpl; [|done].
    split; [done|]. by eexists _, _.
  - simpl. unfold read_ssh_config in E1. rewrite bind_eq in E1. simpl in E1.
    unfold lift in E1. injection E1 as _ E1.
    by apply parse_raises in E1 as [[line ->]| ->].
Qed.


(** ** The columns of the listing *)

Lemma columns_zero entries display_width :
  Columnize.columns entries display_width = 0%nat <->
  (display_width < Columnize.max_entry_width entries + 2)%nat.
Proof. unfold Columnize.columns. rewrite Nat.div_small_iff; lia. Qed.

(** X13.  [columnize] fails with the [IndexError] exactly on the empty list and
    with the [ZeroDivisionError] exactly when the list is not empty and
    the display is narrower than the longest entry and two spaces; in
    every other case it returns a text. *)
Theorem columnize_errors entries display_width :
  (Columnize.columnize entries display_width = inl Columnize.IndexError <->
   entries = []) /\
  (Columnize.columnize entries display_width = inl Columnize.ZeroDivisionError <->
   entries <> [] /\
   (display_width < Columnize.max_entry_width entries + 2)%nat) /\
  ((exists text, Columnize.columnize entries display_width = inr text) <->
   entries <> [] /\
   (Columnize.max_entry_width entries + 2 <= display_width)%nat).
Proof.
  pose proof (columns_zero entries display_width) as Hz.
  unfold Columnize.columnize. destruct entries as [|e entries].
  { split_and!; split; try done; try (by intros []); by intros [? ?]. }
  destruct (Nat.eqb_spec (Columnize.columns (e :: entries) display_width) 0)
    as [H0|H0].
  - split_and!; split; try done.
    + intros _. split; [done|]. by apply Hz.
    + by intros [? ?].
    + intros [_ Hle]. apply Hz in H0. lia.
  - split_and!; split; try done.
    + intros [_ Hlt]. by apply Hz in Hlt.
    + intros _. split; [done|]. rewrite Hz in H0. lia.
    + intros _. eauto.
Qed.

Lemma rows_cover n columns :
  (0 < columns)%nat -> (n <= Columnize.rows n columns * columns)%nat.
Proof.
  intros Hc. unfold Columnize.rows.
  pose proof (Nat.div_mod_eq (n + columns - 1) columns) as Hd.
  pose proof (Nat.mod_upper_bound (n + columns - 1) columns ltac:(lia)) as Hm.
  nia.
Qed.

Abbreviation all_indices rows columns :=
  (seq 0 rows ≫= fun row => (fun column => (column * rows + row)%nat) <$> seq 0 columns).

Lemma layout_indices (entries : list string) rows columns (rs : list nat) :
  List.concat ((fun row =>
             omap (fun column => entries !! (column * rows + row)%nat)
                  (seq 0 columns)) <$> rs) =
  omap (fun i => entries !! i)
       (rs ≫= fun row => (fun column => (column * rows + row)%nat) <$> seq 0 columns).
Proof.
  induction rs as [|row rs IH]; [done|].
  csimpl. rewrite omap_app, IH. f_equal.
  generalize (seq 0 columns). intros cs.
  induction cs as [|c cs IHc]; [done|]. csimpl. by rewrite IHc.
Qed.

Lemma bind_length_const {A B} (f : A -> list B) (l : list A) n :
  (forall x, List.length (f x) = n) -> List.length (l ≫= f) = (List.length l * n)%nat.
Proof.
  intros Hf. induction l as [|x l IH]; [done|].
  rewrite bind_cons, length_app, Hf, IH. simpl. lia.
Qed.

Lemma all_indices_Permutation rows columns :
  (0 < rows)%nat -> all_indices rows columns ≡ₚ seq 0 (rows * columns).
Proof.
  intros Hr. symmetry. apply submseteq_length_Permutation.
  - apply NoDup_submseteq; [apply NoDup_seq|].
    intros i Hi%elem_of_seq. apply list_elem_of_bind.
    exists (i mod rows)%nat. split.
    + apply list_elem_of_fmap. exists (i / rows)%nat. split.
      * pose proof (Nat.div_mod_eq i rows). lia.
      * apply elem_of_seq. split; [lia|]. simpl.
        apply Nat.Div0.div_lt_upper_bound. lia.
    + apply elem_of_seq. split; [lia|]. simpl. apply Nat.mod_upper_bound. lia.
  - rewrite (bind_length_const _ _ columns).
    + by rewrite !length_seq.
    + intros row. by rewrite length_fmap, length_seq.
Qed.

Lemma omap_lookup_seq (entries : list string) m :
  (List.length entries <= m)%nat ->
  omap (fun i => entries !! i) (seq 0 m) = entries.
Proof.
  intros Hm. replace m with (List.length entries + (m - List.length entries))%nat by lia.
  rewrite seq_app, omap_app. simpl.
  assert (omap (fun i => entries !! i)
            (seq (List.length entries) (m - List.length entries)) = []) as ->.
  { generalize (m - List.length entries)%nat. intros k.
    assert (forall j, (List.length entries <= j)%nat ->
      omap (fun i => entries !! i) (seq j k) = []) as H; [|by apply H].
    induction k as [|k IH]; intros j Hj; [done|].
    csimpl. rewrite lookup_ge_None_2 by done. apply IH. lia. }
  rewrite app_nil_r.
  assert (forall (pre l : list string),
    omap (fun i => (pre ++ l) !! i) (seq (List.length pre) (List.length l)) = l)
    as H; [|apply (H [] entries)].
  intros pre l. revert pre. induction l as [|x l IH]; intros pre; [done|].
  csimpl. rewrite list_lookup_middle by done. f_equal.
  specialize (IH (pre ++ [x])). rewrite <- app_assoc, length_app in IH.
  simpl in IH. by rewrite Nat.add_1_r in IH.
Qed.

Lemma columnize_text entries display_width :
  entries <> [] ->
  (Columnize.max_entry_width entries + 2 <= display_width)%nat ->
  Columnize.columnize entries display_width =
    inr (foldr String.append EmptyString
           (Columnize.render_row (Columnize.max_entry_width entries) <$>
            Columnize.layout entries display_width)).
Proof.
  intros Hne Hwide.
  assert (0 < Columnize.columns entries display_width)%nat as Hc.
  { pose proof (columns_zero entries display_width). lia. }
  unfold Columnize.columnize. destruct entries; [done|].
  destruct (Nat.eqb_spec (Columnize.columns (s :: entries) display_width) 0);
    [lia|done].
Qed.

Lemma layout_Permutation entries display_width :
  entries <> [] ->
  (Columnize.max_entry_width entries + 2 <= display_width)%nat ->
  List.concat (Columnize.layout entries display_width) ≡ₚ entries.
Proof.
  intros Hne Hwide.
  assert (0 < Columnize.columns entries display_width)%nat as Hc.
  { pose proof (columns_zero entries display_width). lia. }
  unfold Columnize.layout, Columnize.row_entries.
  set (c := Columnize.columns entries display_width) in *.
  set (r := Columnize.rows (List.length entries) c).
  pose proof (rows_cover (List.length entries) c Hc) as Hcover. fold r in Hcover.
  assert (0 < r)%nat as Hr.
  { destruct entries; [done|]. simpl in Hcover. lia. }
  rewrite layout_indices, (all_indices_Permutation r c Hr).
  by rewrite omap_lookup_seq.
Qed.





Lemma max_entry_width_bound (entries : list string) entry :
  entry ∈ entries ->
  (String.length entry <= Columnize.max_entry_width entries)%nat.
Proof.
  unfold Columnize.max_entry_width.
  induction 1 as [e l|e e' l _ IH]; simpl; lia.
Qed.



Lemma string_append_assoc a b c : (a +:+ b) +:+ c = a +:+ (b +:+ c).
Proof.
  induction a as [|x a IH]; [done|]. rewrite !append_cons. by rewrite IH.
Qed.

Lemma spaces_replicate n :
  Columnize.spaces n = string_of_list_ascii (replicate n " "%char).
Proof. induction n as [|n IH]; simpl; [done|]. by rewrite IH. Qed.

Lemma spaces_two n : Columnize.spaces n +:+ "  " = Columnize.spaces (n + 2).
Proof.
  induction n as [|n IH]; [done|]. simpl. rewrite append_cons. by rewrite IH.
Qed.

(** A cell is its entry, then spaces up to the width and two more. *)
Lemma cell_padding width entry :
  (String.length entry <= width)%nat ->
  Columnize.cell width entry =
  entry +:+
  string_of_list_ascii (replicate (width + 2 - String.length entry) " "%char).
Proof.
  intros H. unfold Columnize.cell, Columnize.ljust.
  rewrite string_append_assoc, spaces_two, spaces_replicate.
  do 3 f_equal. lia.
Qed.

Lemma max_entry_width_attained (entries : list string) :
  entries <> [] ->
  exists entry,
    entry ∈ entries /\ String.length entry = Columnize.max_entry_width entries.
Proof.
  unfold Columnize.max_entry_width.
  induction entries as [|e l IH]; [done|]. intros _. simpl.
  destruct l as [|e' l].
  - exists e. split; [left|]. simpl. lia.
  - destruct IH as (x & Hx & Hlen); [done|].
    destruct (Nat.max_spec (String.length e)
                (max_list_with String.length (e' :: l))) as [[_ ->]|[_ ->]].
    + exists x. split; [by right|done].
    + exists e. split; [left|done].
Qed.

(** X14.  When [columnize] returns, its text is made of rows that end in
    a newline; a row is made of entries of the list, each followed by
    spaces up to the length of the longest entry and two more.  The
    entries of the rows, read row by row, are the entries of the list,
    each once: no entry is left out of the text and none is printed
    twice. *)
Theorem columnize_prints_every_entry entries display_width :
  entries <> [] ->
  (Columnize.max_entry_width entries + 2 <= display_width)%nat ->
  exists (width : nat) (rows : list (list string)),
    (forall entry, entry ∈ entries -> (String.length entry <= width)%nat) /\
    (exists entry, entry ∈ entries /\ String.length entry = width) /\
    List.concat rows ≡ₚ entries /\
    Columnize.columnize entries display_width =
      inr (foldr String.append EmptyString
             ((fun row =>
                 foldr String.append (String "010" EmptyString)
                   ((fun entry =>
                       entry +:+
                       string_of_list_ascii
                         (replicate (width + 2 - String.length entry) " "%char))
                    <$> row))
              <$> rows)).
Proof.
  intros Hne Hwide.
  exists (Columnize.max_entry_width entries),
    (Columnize.layout entries display_width).
  pose proof (layout_Permutation entries display_width Hne Hwide) as Hperm.
  split; [apply max_entry_width_bound|].
  split; [by apply max_entry_width_attained|].
  split; [done|].
  rewrite (columnize_text entries display_width Hne Hwide). do 2 f_equal.
  apply Forall_fmap_ext_1, Forall_forall. intros row Hrow.
  unfold Columnize.render_row. f_equal.
  apply Forall_fmap_ext_1, Forall_forall. intros entry Hentry.
  apply cell_padding, max_entry_width_bound.
  rewrite <- Hperm. apply list_elem_of_In, in_concat.
  exists row. by rewrite <- !list_elem_of_In.
Qed.



(** ** The number of host arguments *)

(** X12.  A command line that parses to a number of positional arguments other
    than two ends in the usage error 'please specify exactly two hosts'
    with the exit status 2, and nothing else has happened. *)
Theorem main_wrong_argument_count argv options args st :
  OptParse.parse_args parse_int argv = OptParse.Done (options, args) ->
  List.length args <> 2%nat ->
  main argv st = (log (ParserError ExactlyTwoHosts) st, Raise (SystemExit 2)).
Proof.
  intros Hparse Hlen. unfold main. rewrite Hparse.
  by destruct args as [|a1 [|a2 [|a3 args]]].
Qed.

(** ** The hosts that are listed *)


End Run.

(** * The properties on a machine *)

Arguments environ {World} s.
Arguments config_file {World} s.
Arguments world {World} s.
Arguments trace {World} s.
Arguments log {World} e st.

Lemma glob_star name : glob name "*" = true.
Proof.
  unfold glob. simpl. induction name as [|c name IH]; [done|].
  simpl. exact IH.
Qed.

Lemma two_hosts_parse :
  SSHConfig.parse SSHConfig.init two_hosts_file = OK two_hosts_config.
Proof. vm_compute. reflexivity. Qed.

Lemma default_port_parse :
  SSHConfig.parse SSHConfig.init default_port_file = OK default_port_config.
Proof. vm_compute. reflexivity. Qed.

(** C1.  The option [-C] stores [False] in [options.compression], so the
    command of a run that is given [-C] holds no [-C]: its inner [scp] is
    run with [-p] and the overrides only. *)
Theorem compression_option_adds_no_flag :
  OptParse.parse_args decimal ["-C"; "h1:/a"; "h2:/b"] =
    OptParse.Done
      ({| verbose := PyBool false; push := PyBool true; limit := PyNone;
          recursive := PyNone; compression := PyBool false |},
       ["h1:/a"; "h2:/b"]) /\
  main glob decimal (list process) scripted ["-C"; "h1:/a"; "h2:/b"]
    {| environ := ∅; config_file := two_hosts_file;
       world := [Exited 0 announcement; Exited 0 ""; Exited 0 ""; Exited 0 ""];
       trace := [] |} =
  ({| environ := agent_variables; config_file := two_hosts_file;
      world := [];
      trace :=
        [ReadConfig;
         Popen [SSH_AGENT_PATH] ∅ PIPE;
         Popen [SSH_ADD_PATH; "/k1"] agent_variables sys_stdio;
         Popen [SSH_PATH; "-A"; "-t"; "h1"; "scp"; "-p"; "-ouser=me";
                "/a"; "h2.example.org:/b"] agent_variables sys_stdio;
         Popen [SSH_AGENT_PATH; "-k"] agent_variables PIPE] |},
   OK tt).
Proof. split; vm_compute; reflexivity. Qed.

(** C2.  An alias that matches no rule but the rule of [*] is not taken
    for an unknown host when that rule holds an option.  With a port set
    for every host before the first Host line, [nohost] matches the rule
    of [*] alone and resolves to that port; the resolved options are not
    empty, so the run does not abort: nothing is listed and no error is
    printed, the agent is started and the transfer is run through
    [nohost]. *)
Theorem unknown_host_with_default_options_runs :
  SSHConfig.parse SSHConfig.init default_port_file = OK default_port_config /\
  matching_rules glob default_port_config "nohost" =
    [ {[ "host" := "*"; "port" := "22" ]} ] /\
  SSHConfig.lookup glob default_port_config "nohost" = OK {[ "port" := "22" ]} /\
  main_transfer glob (list process) scripted ("nohost", "/a") ("h2", "/b")
    OptParse.defaults
    {| environ := ∅; config_file := default_port_file;
       world := [Exited 0 announcement; Exited 0 ""; Exited 0 ""];
       trace := [] |} =
  ({| environ := agent_variables; config_file := default_port_file;
      world := [];
      trace :=
        [ReadConfig;
         Popen [SSH_AGENT_PATH] ∅ PIPE;
         Popen [SSH_PATH; "-A"; "-t"; "nohost"; "scp"; "-p"; "-oport=2222";
                "/a"; "h2.example.org:/b"] agent_variables sys_stdio;
         Popen [SSH_AGENT_PATH; "-k"] agent_variables PIPE] |},
   OK tt).
Proof. split_and!; vm_compute; reflexivity. Qed.

(** C3.  An announcement with a process id and no socket does not make
    [ssh_agent_start] raise the [ScpError] 'Cannot determine agent data':
    the pair of the process id is found, and [agent['SSH_AUTH_SOCK']]
    raises a [KeyError], which [main_transfer] does not catch. *)
Theorem announcement_without_socket_raises_KeyError :
  AgentOutput.findall announcement_without_socket = [("SSH_PAGEANT_PID", "1234")] /\
  ssh_agent_start (list process) scripted
    {| environ := ∅; config_file := two_hosts_file;
       world := [Exited 0 announcement_without_socket]; trace := [] |} =
  ({| environ := ∅; config_file := two_hosts_file; world := [];
      trace := [Popen [SSH_AGENT_PATH] ∅ PIPE] |},
   Raise (KeyError "SSH_AUTH_SOCK")) /\
  main_transfer glob (list process) scripted ("h1", "/a") ("h2", "/b")
    OptParse.defaults
    {| environ := ∅; config_file := two_hosts_file;
       world := [Exited 0 announcement_without_socket]; trace := [] |} =
  ({| environ := ∅; config_file := two_hosts_file; world := [];
      trace := [ReadConfig; Popen [SSH_AGENT_PATH] ∅ PIPE] |},
   Raise (KeyError "SSH_AUTH_SOCK")).
Proof. split_and!; vm_compute; reflexivity. Qed.

Lemma lookup_merges_matching_rules_witness :
  SSHConfig.parse SSHConfig.init default_port_file = OK default_port_config /\
  exists (ms : list dict) (ret : dict),
    ascending_stable (matching_rules glob default_port_config "h2") ms /\
    SSHConfig.lookup glob default_port_config "h2" = OK ret /\
    (forall k, ret !! k = if decide (k = "host") then None else last_binding ms k) /\
    (forall w r,
       matching_rules glob default_port_config "h2" = [w; r] ->
       pattern w = "*" ->
       w !! "port" = Some "22" -> r !! "port" = Some "2222" ->
       ret !! "port" = Some "2222").
Proof.
  split; [vm_compute; reflexivity|].
  apply (lookup_merges_matching_rules glob glob_star default_port_file
           default_port_config "h2").
  vm_compute. reflexivity.
Defined.

Lemma scp_endpoints_by_direction_witness :
  config host_h2 !! "hostname" = Some "h2.example.org" /\
  exists connect_host source target outer inner,
    Scp.command host_h1 host_h2 OptParse.defaults =
      OK ([SSH_PATH; "-A"; "-t"] ++ outer ++
          [name connect_host; "scp"; "-p"] ++ inner ++ [source; target]) /\
    (truthy (push OptParse.defaults) = true ->
       connect_host = host_h1 /\
       source = path host_h1 /\
       target = "h2.example.org" +:+ ":" +:+ path host_h2) /\
    (truthy (push OptParse.defaults) = false ->
       connect_host = host_h2 /\
       source = "h2.example.org" +:+ ":" +:+ path host_h1 /\
       target = if decide (path host_h2 = "") then "~" else path host_h2).
Proof.
  split; [vm_compute; reflexivity|].
  apply (scp_endpoints_by_direction host_h1 host_h2 OptParse.defaults
           "h2.example.org").
  vm_compute. reflexivity.
Defined.

Lemma push_target_keeps_empty_path_witness :
  truthy (push OptParse.defaults) = true /\
  config host_h2 !! "hostname" = Some "h2.example.org" /\
  exists target before,
    Scp.endpoints host_h1 host_h2 OptParse.defaults =
      OK (host_h1, host_h2, path host_h1, target) /\
    Scp.command host_h1 host_h2 OptParse.defaults =
      OK (before ++ [path host_h1; target]) /\
    target = "h2.example.org" +:+ ":" +:+ path host_h2 /\
    target <> "~" /\
    (path host_h2 = "" -> target = "h2.example.org" +:+ ":").
Proof.
  split; [reflexivity|]. split; [vm_compute; reflexivity|].
  apply (push_target_keeps_empty_path host_h1 host_h2 OptParse.defaults
           "h2.example.org").
  - reflexivity.
  - vm_compute. reflexivity.
Defined.

Lemma scp_overrides_remote_config_witness :
  config host_h2 !! "hostname" = Some "h2.example.org" /\
  plain_keys (config host_h2) /\
  exists remote_host connect_host items inner overrides source target,
    remote_host = (if truthy (push OptParse.defaults) then host_h2 else host_h1) /\
    connect_host = (if truthy (push OptParse.defaults) then host_h1 else host_h2) /\
    inner =
      ["scp"; "-p"] ++
      (if truthy (verbose OptParse.defaults) then ["-v"] else []) ++
      (if truthy (limit OptParse.defaults)
       then ["-l"; str (limit OptParse.defaults)] else []) ++
      (if truthy (recursive OptParse.defaults) then ["-r"] else []) ++
      (if truthy (compression OptParse.defaults) then ["-C"] else []) /\
    overrides = (fun kv => "-o" +:+ fst kv +:+ "=" +:+ snd kv) <$> items /\
    Scp.command host_h1 host_h2 OptParse.defaults =
      OK ([SSH_PATH; "-A"; "-t"] ++
          (if truthy (verbose OptParse.defaults) then ["-v"] else []) ++
          [name connect_host] ++
          inner ++ overrides ++ [source; target]) /\
    NoDup items /\
    (forall k v,
       (k, v) ∈ items <->
       config remote_host !! k = Some v /\ k <> "identityfile" /\ k <> "hostname") /\
    (plain_keys (config remote_host) ->
       NoDup overrides /\
       forall v,
         (("-o" +:+ "identityfile" +:+ "=" +:+ v) ∉ inner ++ overrides) /\
         (("-o" +:+ "hostname" +:+ "=" +:+ v) ∉ inner ++ overrides)).
Proof.
  split; [vm_compute; reflexivity|]. split.
  { intros k [v Hv]. simpl in Hv.
    apply lookup_insert_Some in Hv as [[<- _]|[_ Hv]]; [reflexivity|].
    apply lookup_singleton_Some in Hv as [<- _]. reflexivity. }
  apply (scp_overrides_remote_config host_h1 host_h2 OptParse.defaults
           "h2.example.org").
  vm_compute. reflexivity.
Defined.

Lemma main_accepts_one_colon_witness :
  OptParse.parse_args decimal ["h1:/a"; "h2:"] =
    OptParse.Done (OptParse.defaults, ["h1:/a"; "h2:"]) /\
  (Py.count ":" "h1:/a" = 1%nat -> Py.count ":" "h2:" = 1%nat ->
     exists host1 host2,
       "h1:/a" = fst host1 +:+ ":" +:+ snd host1 /\
       "h2:" = fst host2 +:+ ":" +:+ snd host2 /\
       main glob decimal (list process) scripted ["h1:/a"; "h2:"]
         {| environ := ∅; config_file := two_hosts_file; world := [];
            trace := [] |} =
       main_transfer glob (list process) scripted host1 host2 OptParse.defaults
         {| environ := ∅; config_file := two_hosts_file; world := [];
            trace := [] |}) /\
  (Py.count ":" "h1:/a" <> 1%nat \/ Py.count ":" "h2:" <> 1%nat ->
     main glob decimal (list process) scripted ["h1:/a"; "h2:"]
       {| environ := ∅; config_file := two_hosts_file; world := [];
          trace := [] |} =
     (log (ParserError HostnamePathForm)
        {| environ := ∅; config_file := two_hosts_file; world := [];
           trace := [] |},
      Raise (SystemExit 2))) /\
  (forall name1 name2,
     Py.contains ":" name1 = false -> Py.contains ":" name2 = false ->
     "h1:/a" = name1 +:+ ":" -> "h2:" = name2 +:+ ":" ->
     main glob decimal (list process) scripted ["h1:/a"; "h2:"]
       {| environ := ∅; config_file := two_hosts_file; world := [];
          trace := [] |} =
     main_transfer glob (list process) scripted (name1, "") (name2, "")
       OptParse.defaults
       {| environ := ∅; config_file := two_hosts_file; world := [];
          trace := [] |}).
Proof.
  split; [reflexivity|].
  apply (main_accepts_one_colon glob decimal (list process) scripted
           ["h1:/a"; "h2:"] OptParse.defaults "h1:/a" "h2:").
  reflexivity.
Defined.

(** An argument with two colons, or with none, is refused with the usage
    error before the configuration is read; one with an empty path is
    taken. *)
Lemma main_refuses_two_colons :
  main glob decimal (list process) scripted ["h1:/a:b"; "h2:/b"]
    {| environ := ∅; config_file := two_hosts_file; world := []; trace := [] |} =
  ({| environ := ∅; config_file := two_hosts_file; world := [];
      trace := [ParserError HostnamePathForm] |},
   Raise (SystemExit 2)) /\
  main glob decimal (list process) scripted ["h1"; "h2:/b"]
    {| environ := ∅; config_file := two_hosts_file; world := []; trace := [] |} =
  ({| environ := ∅; config_file := two_hosts_file; world := [];
      trace := [ParserError HostnamePathForm] |},
   Raise (SystemExit 2)).
Proof. split; vm_compute; reflexivity. Qed.

(** Two runs of the guarded transfer that fail.  The first starts its
    agent and fails to load the key: the agent is stopped once.  The
    second inherits a socket and fails in the transfer: no agent is
    stopped. *)
Lemma owned_agent_stopped_after_key_failure :
  main_transfer glob (list process) scripted ("h1", "/a") ("h2", "/b")
    OptParse.defaults
    {| environ := ∅; config_file := two_hosts_file;
       world := [Exited 0 announcement; Exited 1 ""; Exited 0 ""];
       trace := [] |} =
  ({| environ := agent_variables; config_file := two_hosts_file;
      world := [];
      trace :=
        [ReadConfig;
         Popen [SSH_AGENT_PATH] ∅ PIPE;
         Popen [SSH_ADD_PATH; "/k1"] agent_variables sys_stdio;
         Popen [SSH_AGENT_PATH; "-k"] agent_variables PIPE;
         PrintError (ProcessError 1)] |},
   Raise (SystemExit 2)).
Proof. vm_compute. reflexivity. Qed.

Lemma inherited_agent_kept_after_transfer_failure :
  main_transfer glob (list process) scripted ("h1", "/a") ("h2", "/b")
    OptParse.defaults
    {| environ := {[ "SSH_AUTH_SOCK" := "/tmp/inherited.sock" ]};
       config_file := two_hosts_file;
       world := [Exited 0 ""; Exited 255 ""];
       trace := [] |} =
  ({| environ := {[ "SSH_AUTH_SOCK" := "/tmp/inherited.sock" ]};
      config_file := two_hosts_file;
      world := [];
      trace :=
        [ReadConfig;
         Popen [SSH_ADD_PATH; "/k1"]
           {[ "SSH_AUTH_SOCK" := "/tmp/inherited.sock" ]} sys_stdio;
         Popen [SSH_PATH; "-A"; "-t"; "h1"; "scp"; "-p"; "-ouser=me";
                "/a"; "h2.example.org:/b"]
           {[ "SSH_AUTH_SOCK" := "/tmp/inherited.sock" ]} sys_stdio;
         PrintError (ProcessError 255)] |},
   Raise (SystemExit 2)).
Proof. vm_compute. reflexivity. Qed.

(** ** More properties, on the same machine *)

(** A file that declares [a] twice: the store has one rule for it. *)
Lemma parse_patterns_distinct_witness :
  SSHConfig.parse SSHConfig.init
    (file ["Host a"; "  Port 1"; "Host b a"; "  User u"]) =
    OK [ {[ "host" := "*" ]};
         {[ "host" := "a"; "port" := "1"; "user" := "u" ]};
         {[ "host" := "b"; "user" := "u" ]} ] /\
  NoDup (pattern <$>
         [ {[ "host" := "*" ]};
           {[ "host" := "a"; "port" := "1"; "user" := "u" ]};
           {[ "host" := "b"; "user" := "u" ]} ]).
Proof.
  split; [vm_compute; reflexivity|].
  apply (parse_patterns_distinct
           (file ["Host a"; "  Port 1"; "Host b a"; "  User u"])).
  vm_compute. reflexivity.
Defined.

Lemma lookup_keys_lower_witness :
  SSHConfig.parse SSHConfig.init default_port_file = OK default_port_config /\
  SSHConfig.lookup glob default_port_config "h2" =
    OK {[ "hostname" := "h2.example.org"; "port" := "2222" ]} /\
  lower_keys {[ "hostname" := "h2.example.org"; "port" := "2222" ]}.
Proof.
  split; [vm_compute; reflexivity|]. split; [vm_compute; reflexivity|].
  apply (lookup_keys_lower glob glob_star default_port_file
           default_port_config "h2").
  - vm_compute. reflexivity.
  - vm_compute. reflexivity.
Defined.

Lemma parse_skips_ignored_line_witness :
  is_ignored ("  # the port" +:+ newline) = true /\
  SSHConfig.parse SSHConfig.init
    (file ["Host h1"] ++ ("  # the port" +:+ newline) :: file ["  Port 22"]) =
  SSHConfig.parse SSHConfig.init (file ["Host h1"] ++ file ["  Port 22"]).
Proof.
  split; [vm_compute; reflexivity|].
  apply (parse_skips_ignored_line SSHConfig.init (file ["Host h1"])
           ("  # the port" +:+ newline) (file ["  Port 22"])).
  vm_compute. reflexivity.
Defined.

Lemma parse_unparsable_line_witness :
  SSHConfig.parse SSHConfig.init
    (file ["Host h1"] ++ ("  Compression" +:+ newline) :: file ["  Port 22"]) =
  Raise (UnparsableLine "Compression").
Proof.
  apply (parse_unparsable_line SSHConfig.init (file ["Host h1"])
           ("  Compression" +:+ newline) (file ["  Port 22"])
           [ {[ "host" := "*" ]}; {[ "host" := "h1" ]} ]
           "C"%char "ompression").
  - vm_compute. reflexivity.
  - vm_compute. reflexivity.
  - discriminate.
  - vm_compute. reflexivity.
  - intros [[] [] [] [] [] [] [] []]; vm_compute; congruence.
Defined.

Lemma lookup_wildcard_only_witness :
  SSHConfig.parse SSHConfig.init default_port_file = OK default_port_config /\
  exists r0,
    head default_port_config = Some r0 /\ pattern r0 = "*" /\
    SSHConfig.lookup glob default_port_config "nohost" = OK (delete "host" r0).
Proof.
  split; [vm_compute; reflexivity|].
  apply (lookup_wildcard_only glob glob_star default_port_file
           default_port_config "nohost").
  - vm_compute. reflexivity.
  - intros r Hr.
    assert (matching_rules glob default_port_config "nohost" =
            [ {[ "host" := "*"; "port" := "22" ]} ])
      as Hm by (vm_compute; reflexivity).
    rewrite Hm in Hr. apply list_elem_of_singleton in Hr as ->.
    reflexivity.
Defined.

Lemma lookup_longest_pattern_wins_witness :
  SSHConfig.parse SSHConfig.init default_port_file = OK default_port_config /\
  exists ret,
    SSHConfig.lookup glob default_port_config "h2" = OK ret /\
    ret !! "port" = Some "2222".
Proof.
  split; [vm_compute; reflexivity|].
  assert (matching_rules glob default_port_config "h2" =
          [ {[ "host" := "*"; "port" := "22" ]};
            {[ "host" := "h2"; "hostname" := "h2.example.org";
               "port" := "2222" ]} ])
    as Hm by (vm_compute; reflexivity).
  apply (lookup_longest_pattern_wins glob glob_star default_port_file
           default_port_config "h2"
           {[ "host" := "h2"; "hostname" := "h2.example.org";
              "port" := "2222" ]} "port" "2222").
  - vm_compute. reflexivity.
  - rewrite Hm. right. left.
  - vm_compute. reflexivity.
  - discriminate.
  - intros r' Hr' Hne _. rewrite Hm, !elem_of_cons in Hr'.
    destruct Hr' as [->|[->|Hr']].
    + vm_compute. lia.
    + by destruct Hne.
    + by apply elem_of_nil in Hr'.
Defined.

Lemma ssh_agent_start_returns_socket_witness :
  ssh_agent_start (list process) scripted
    {| environ := ∅; config_file := two_hosts_file;
       world := [Exited 0 announcement]; trace := [] |} =
  ({| environ := ∅; config_file := two_hosts_file; world := [];
      trace := [Popen [SSH_AGENT_PATH] ∅ PIPE] |},
   OK agent_variables) /\
  is_Some (agent_variables !! "SSH_AUTH_SOCK") /\
  (forall k, is_Some (agent_variables !! k) -> k ∈ agent_names) /\
  (∅ : dict) = ∅ /\
  [Popen [SSH_AGENT_PATH] ∅ PIPE] = [] ++ [Popen [SSH_AGENT_PATH] ∅ PIPE].
Proof.
  split; [vm_compute; reflexivity|].
  apply (ssh_agent_start_returns_socket (list process) scripted
    {| environ := ∅; config_file := two_hosts_file;
       world := [Exited 0 announcement]; trace := [] |}
    {| environ := ∅; config_file := two_hosts_file; world := [];
       trace := [Popen [SSH_AGENT_PATH] ∅ PIPE] |}
    agent_variables).
  vm_compute. reflexivity.
Defined.

Lemma key_loading_failure_skips_transfer_witness :
  trace (fst (transfer_with_agent (list process) scripted agent_variables true
                host_h1 host_h2 OptParse.defaults
                {| environ := ∅; config_file := two_hosts_file;
                   world := [Exited 1 ""; Exited 0 ""]; trace := [] |})) =
    [] ++
    Popen [SSH_ADD_PATH; "/k1"] (agent_variables ∪ ∅) sys_stdio ::
    [Popen [SSH_AGENT_PATH; "-k"] (agent_variables ∪ ∅) PIPE] /\
  exists v,
    snd (transfer_with_agent (list process) scripted agent_variables true
           host_h1 host_h2 OptParse.defaults
           {| environ := ∅; config_file := two_hosts_file;
              world := [Exited 1 ""; Exited 0 ""]; trace := [] |}) =
    Raise (ScpError v).
Proof.
  apply (key_loading_failure_skips_transfer (list process) scripted
    agent_variables true host_h1 host_h2 OptParse.defaults
    {| environ := ∅; config_file := two_hosts_file;
       world := [Exited 1 ""; Exited 0 ""]; trace := [] |}
    "/k1" [] [Exited 0 ""] (Exited 1 "")).
  - vm_compute. reflexivity.
  - reflexivity.
  - discriminate.
Defined.

Lemma missing_hostname_raises_KeyError_witness :
  config {| name := "h2"; path := "/b"; config := {[ "user" := "me" ]} |}
    !! "hostname" = None /\
  no_ssh (list process)
    {| environ := ∅; config_file := two_hosts_file;
       world := [Exited 0 ""; Exited 0 ""]; trace := [] |}
    (fst (transfer_with_agent (list process) scripted agent_variables true
            host_h1
            {| name := "h2"; path := "/b"; config := {[ "user" := "me" ]} |}
            OptParse.defaults
            {| environ := ∅; config_file := two_hosts_file;
               world := [Exited 0 ""; Exited 0 ""]; trace := [] |})) /\
  (snd (transfer_with_agent (list process) scripted agent_variables true
          host_h1
          {| name := "h2"; path := "/b"; config := {[ "user" := "me" ]} |}
          OptParse.defaults
          {| environ := ∅; config_file := two_hosts_file;
             world := [Exited 0 ""; Exited 0 ""]; trace := [] |})
     = Raise (KeyError "hostname") \/
   exists v,
     snd (transfer_with_agent (list process) scripted agent_variables true
            host_h1
            {| name := "h2"; path := "/b"; config := {[ "user" := "me" ]} |}
            OptParse.defaults
            {| environ := ∅; config_file := two_hosts_file;
               world := [Exited 0 ""; Exited 0 ""]; trace := [] |})
       = Raise (ScpError v)).
Proof.
  split; [vm_compute; reflexivity|].
  apply (missing_hostname_raises_KeyError (list process) scripted
    agent_variables true host_h1
    {| name := "h2"; path := "/b"; config := {[ "user" := "me" ]} |}
    OptParse.defaults
    {| environ := ∅; config_file := two_hosts_file;
       world := [Exited 0 ""; Exited 0 ""]; trace := [] |}).
  vm_compute. reflexivity.
Defined.

Lemma main_wrong_argument_count_witness :
  OptParse.parse_args decimal ["-r"; "h1:/a"] =
    OptParse.Done
      ({| verbose := PyBool false; push := PyBool true; limit := PyNone;
          recursive := PyBool true; compression := PyNone |},
       ["h1:/a"]) /\
  main glob decimal (list process) scripted ["-r"; "h1:/a"]
    {| environ := ∅; config_file := two_hosts_file; world := []; trace := [] |} =
  (log (ParserError ExactlyTwoHosts)
     {| environ := ∅; config_file := two_hosts_file; world := [];
        trace := [] |},
   Raise (SystemExit 2)).
Proof.
  split; [vm_compute; reflexivity|].
  apply (main_wrong_argument_count glob decimal (list process) scripted
    ["-r"; "h1:/a"]
    {| verbose := PyBool false; push := PyBool true; limit := PyNone;
       recursive := PyBool true; compression := PyNone |}
    ["h1:/a"]).
  - vm_compute. reflexivity.
  - simpl. lia.
Defined.

Lemma columnize_prints_every_entry_witness :
  exists (width : nat) (rows : list (list string)),
    (forall entry, entry ∈ ["h1"; "h2"; "host3"] ->
       (String.length entry <= width)%nat) /\
    (exists entry, entry ∈ ["h1"; "h2"; "host3"] /\ String.length entry = width) /\
    List.concat rows ≡ₚ ["h1"; "h2"; "host3"] /\
    Columnize.columnize ["h1"; "h2"; "host3"] 16 =
      inr (foldr String.append EmptyString
             ((fun row =>
                 foldr String.append (String "010" EmptyString)
                   ((fun entry =>
                       entry +:+
                       string_of_list_ascii
                         (replicate (width + 2 - String.length entry) " "%char))
                    <$> row))
              <$> rows)).
Proof.
  apply (columnize_prints_every_entry ["h1"; "h2"; "host3"] 16).
  - discriminate.
  - vm_compute. lia.
Defined.

(** The text of that listing: two rows in two columns, the entries going
    down the first column before the second. *)
Lemma columnize_three_hosts :
  Columnize.columnize ["h1"; "h2"; "host3"] 16 =
    inr ("h1     host3  " +:+ newline +:+ "h2     " +:+ newline).
Proof. vm_compute. reflexivity. Qed.

Lemma compression_never_enabled_witness :
  OptParse.parse_args decimal ["-C"; "h1:/a"; "h2:/b"] =
    OptParse.Done
      ({| verbose := PyBool false; push := PyBool true; limit := PyNone;
          recursive := PyNone; compression := PyBool false |},
       ["h1:/a"; "h2:/b"]) /\
  truthy (compression
            {| verbose := PyBool false; push := PyBool true; limit := PyNone;
               recursive := PyNone; compression := PyBool false |}) = false.
Proof.
  split; [vm_compute; reflexivity|].
  apply (compression_never_enabled decimal ["-C"; "h1:/a"; "h2:/b"]
    {| verbose := PyBool false; push := PyBool true; limit := PyNone;
       recursive := PyNone; compression := PyBool false |}
    ["h1:/a"; "h2:/b"]).
  vm_compute. reflexivity.
Defined.

Lemma ssh_agent_start_no_pair_witness :
  AgentOutput.findall "ssh-agent: not a socket" = [] /\
  snd (ssh_agent_start (list process) scripted
         {| environ := ∅; config_file := two_hosts_file;
            world := [Exited 0 "ssh-agent: not a socket"]; trace := [] |}) =
  Raise (ScpError (CannotDetermineAgentData "ssh-agent: not a socket")).
Proof.
  split; [vm_compute; reflexivity|].
  apply (ssh_agent_start_no_pair (list process) scripted
    {| environ := ∅; config_file := two_hosts_file;
       world := [Exited 0 "ssh-agent: not a socket"]; trace := [] |}
    [] "ssh-agent: not a socket").
  - reflexivity.
  - vm_compute. reflexivity.
Defined.

Lemma ssh_agent_start_no_sock_witness :
  AgentOutput.findall ("SSH_AGENT_PID=77; export SSH_AGENT_PID;" +:+ newline) =
    [("SSH_AGENT_PID", "77")] /\
  snd (ssh_agent_start (list process) scripted
         {| environ := ∅; config_file := two_hosts_file;
            world := [Exited 0 ("SSH_AGENT_PID=77; export SSH_AGENT_PID;" +:+
                                newline)];
            trace := [] |}) =
  Raise (KeyError "SSH_AUTH_SOCK").
Proof.
  assert (AgentOutput.findall
            ("SSH_AGENT_PID=77; export SSH_AGENT_PID;" +:+ newline) =
          [("SSH_AGENT_PID", "77")]) as Hm by (vm_compute; reflexivity).
  split; [exact Hm|].
  apply (ssh_agent_start_no_sock (list process) scripted
    {| environ := ∅; config_file := two_hosts_file;
       world := [Exited 0 ("SSH_AGENT_PID=77; export SSH_AGENT_PID;" +:+
                           newline)];
       trace := [] |}
    [] ("SSH_AGENT_PID=77; export SSH_AGENT_PID;" +:+ newline)).
  - reflexivity.
  - rewrite Hm. discriminate.
  - rewrite Hm. csimpl. intros H%list_elem_of_singleton. discriminate H.
Defined.

Lemma lookup_plain_keys_witness :
  SSHConfig.parse SSHConfig.init two_hosts_file = OK two_hosts_config /\
  SSHConfig.lookup glob two_hosts_config "h2" =
    OK {[ "hostname" := "h2.example.org"; "user" := "me" ]} /\
  plain_keys {[ "hostname" := "h2.example.org"; "user" := "me" ]}.
Proof.
  split; [vm_compute; reflexivity|]. split; [vm_compute; reflexivity|].
  apply (lookup_plain_keys glob glob_star two_hosts_file two_hosts_config "h2").
  - vm_compute. reflexivity.
  - vm_compute. reflexivity.
Defined.
